(** * PassNameParser: command-line values from the pass registry

    A shallow embedding of [include/llvm/Support/PassNameParser.h]:
    [PassNameParser], [FilteredPassNameParser<Filter>] and
    [PassArgFilter<Args>], together with the properties of the registrar
    that the design document states about them.

    Conventions of the embedding.
    - A [const char*] is a [cstr]: [None] is the null pointer, [Some s] points
      to the characters [s] that precede the terminating NUL.
    - A function pointer is an [option] of an address.
    - [abort()] and undefined behaviour (a null pointer handed to a function
      that reads it) are outcomes of their own, see [Outcome]. *)

From Stdlib Require Import List String Ascii Bool Arith NArith Lia.
From Stdlib Require Import Permutation Sorting.Sorted.
Import ListNotations.

Set Implicit Arguments.

(** ** C strings and [strstr] *)

Definition cstr := option string.

(** [std::strstr(haystack, needle)] for two valid strings: the offset of the
    first occurrence of [needle] in [haystack], [None] for the null result.
    An empty needle is found at offset 0. *)
Fixpoint strstr (haystack needle : string) : option nat :=
  if String.prefix needle haystack then Some 0
  else match haystack with
       | EmptyString => None
       | String _ rest => option_map S (strstr rest needle)
       end.

(** Conversion of a pointer to [bool], as in [return(std::strstr(..))]. *)
Definition ptr_to_bool {A : Type} (p : option A) : bool :=
  match p with Some _ => true | None => false end.

(** ** Pass descriptors ([PassInfo], as far as this header reads it) *)

Definition NormalCtor_t := nat.

Record PassInfo : Type := mkPassInfo {
  getPassName : cstr;
  getPassArgument : cstr;
  getNormalCtor : option NormalCtor_t
}.

(** ** Outcomes of a call *)

Inductive Outcome (S : Type) : Type :=
| Returned (s : S)                    (* the call returns, leaving state [s] *)
| Aborted (cerr : string) (s : S)     (* [cerr] was written, then [abort()] *)
| Undefined.                          (* undefined behaviour *)

Arguments Undefined {S}.

(** ** The command-line value table ([cl::parser<const PassInfo*>]) *)

Definition Option_t := nat.

(** [ValType]: an option name, the pass it selects and its help string.  The
    name of an entry is always a valid string: the only producer,
    [passRegistered], adds an entry after checking the pointer. *)
Definition ValType : Type := (string * (PassInfo * cstr))%type.

Module cl.

(** Modelled from the spec: [cl::parser<DataType>] of
    [llvm/Support/CommandLine.h] is not part of the sources at hand.  Its
    [Values] member is the ordered sequence of Registered Entries that backs
    the option's legal-value set, in insertion order. *)
Definition getNumOptions (Values : list ValType) : nat := List.length Values.

(** Modelled from the spec: [findOption] looks the token up among the
    existing entries; it answers the index of the first entry with that
    name, and [getNumOptions] when there is none. *)
Fixpoint findOption (Values : list ValType) (Name : string) : nat :=
  match Values with
  | [] => 0
  | v :: rest => if String.eqb (fst v) Name then 0 else S (findOption rest Name)
  end.

(** Modelled from the spec: [addLiteralOption] appends a new Registered
    Entry (token, Descriptor, display name). *)
Definition addLiteralOption (Values : list ValType)
    (Name : string) (V : PassInfo) (HelpStr : cstr) : list ValType :=
  Values ++ [(Name, (V, HelpStr))].

(** Modelled from the spec: the option-rendering facility presents the
    entries in the order of [Values]; a line pairs the option name with its
    help string.  Column layout ([GlobalWidth]) is outside this model. *)
Definition printOptionInfo (Values : list ValType)
    (O : Option_t) (GlobalWidth : nat) : list (string * cstr) :=
  map (fun v => (fst v, snd (snd v))) Values.

End cl.

(** ** Calls of the virtual refinement

    [ignorablePass] is written as a small computation tree in which a call of
    the virtual [ignorablePassImpl] is a node of its own: this keeps the
    left-to-right, short-circuit evaluation of [||] visible.  A refinement is
    a partial function: [None] stands for undefined behaviour inside it. *)

Inductive Eval (A : Type) : Type :=
| Done (a : A)
| CallImpl (P : PassInfo) (k : bool -> Eval A).

Arguments Done {A} a.
Arguments CallImpl {A} P k.

Definition Refinement := PassInfo -> option bool.

Fixpoint eval {A : Type} (impl : Refinement) (e : Eval A) : option A :=
  match e with
  | Done a => Some a
  | CallImpl P k =>
      match impl P with
      | Some b => eval impl (k b)
      | None => None
      end
  end.

(** The descriptors handed to the refinement while [e] is evaluated. *)
Fixpoint calls {A : Type} (impl : Refinement) (e : Eval A) : list PassInfo :=
  match e with
  | Done _ => []
  | CallImpl P k =>
      P :: match impl P with
           | Some b => calls impl (k b)
           | None => []
           end
  end.

(** ** PassNameParser *)

Record PassNameParser : Type := mkParser {
  Opt : option Option_t;
  Values : list ValType
}.

(** [PassNameParser() : Opt(0) {}] *)
Definition PassNameParser_new : PassNameParser :=
  {| Opt := None; Values := [] |}.

(** [ignorablePass]: the three base tests, then the refinement. *)
Definition ignorablePass_eval (P : PassInfo) : Eval bool :=
  match getPassArgument P with
  | None => Done true                          (* P->getPassArgument() == 0 *)
  | Some EmptyString => Done true              (* *P->getPassArgument() == 0 *)
  | Some (String _ _) =>
      match getNormalCtor P with
      | None => Done true                      (* P->getNormalCtor() == 0 *)
      | Some _ => CallImpl P Done              (* ignorablePassImpl(P) *)
      end
  end.

Definition duplicate_message (arg : string) : string :=
  ("Two passes with the same argument (-" ++ arg
     ++ ") attempted to be registered!" ++ String "010"%char EmptyString)%string.

Section Parser.

(** The virtual [ignorablePassImpl] of the parser at hand. *)
Variable ignorablePassImpl : Refinement.

Definition ignorablePass (P : PassInfo) : option bool :=
  eval ignorablePassImpl (ignorablePass_eval P).

Definition passRegistered (this : PassNameParser) (P : PassInfo)
    : Outcome PassNameParser :=
  match ignorablePass P with
  | None => Undefined
  | Some ignorable =>
      if ignorable || negb (ptr_to_bool (Opt this)) then Returned this
      else
        match getPassArgument P with
        | None => Undefined
        | Some arg =>
            if negb (cl.findOption (Values this) arg
                       =? cl.getNumOptions (Values this))
            then Aborted (duplicate_message arg) this
            else Returned
                   {| Opt := Opt this;
                      Values := cl.addLiteralOption (Values this) arg P
                                  (getPassName P) |}
        end
  end.

Definition passEnumerate (this : PassNameParser) (P : PassInfo)
    : Outcome PassNameParser :=
  passRegistered this P.

(** Modelled from the spec: [PassRegistrationListener::enumeratePasses]
    belongs to [llvm/Pass.h], which is not part of the sources at hand.  It
    replays every Descriptor already known ([known]), synchronously and in
    order, through [passEnumerate]; [abort()] ends the replay. *)
Fixpoint enumeratePasses (known : list PassInfo) (this : PassNameParser)
    : Outcome PassNameParser :=
  match known with
  | [] => Returned this
  | P :: rest =>
      match passEnumerate this P with
      | Returned this' => enumeratePasses rest this'
      | stop => stop
      end
  end.

(** [initialize(O)]: [Opt = &O], the base class's [initialize] (which does
    not touch [Values]), then the replay. *)
Definition initialize (known : list PassInfo) (this : PassNameParser)
    (O : Option_t) : Outcome PassNameParser :=
  enumeratePasses known {| Opt := Some O; Values := Values this |}.

End Parser.

(** [PassNameParser::ignorablePassImpl]: the base class refines nothing. *)
Definition PassNameParser_ignorablePassImpl : Refinement :=
  fun _ => Some false.

(** A filter is applied to [*P]; like any function it may be undefined on
    some arguments. *)
Definition Filter := PassInfo -> option bool.

(** [FilteredPassNameParser<Filter>::ignorablePassImpl]: [return !filter( *P )]. *)
Definition FilteredPassNameParser_ignorablePassImpl (filter : Filter)
    : Refinement :=
  fun P => option_map negb (filter P).

(** [PassArgFilter<Args>::operator()]: [strstr(Args, P.getPassArgument())]
    converted to [bool].  [Args] is the address of a character array, never
    null; [strstr] reads its second argument, so that a null argument is
    undefined behaviour. *)
Definition PassArgFilter (Args : string) : Filter :=
  fun P =>
    match getPassArgument P with
    | None => None
    | Some needle => Some (ptr_to_bool (strstr Args needle))
    end.

(** ** Sorting the table for display *)

(** [ValLessThan]: [std::string(VT1.first) < std::string(VT2.first)], the
    lexicographic order on the character codes. *)
Definition ValLessThan (VT1 VT2 : ValType) : bool :=
  String.ltb (fst VT1) (fst VT2).

(** [std::sort(first, last, comp)] leaves a permutation of the range in
    which no element is less than an earlier one.  The order of equivalent
    elements is unspecified; this model keeps them in their input order (it
    is an insertion sort), so that it stands for [std::sort] on tables whose
    names are pairwise distinct: [std_sort_unique] below shows that there
    every sort that keeps the promise computes the same list.  A property
    that depends on the order of equal names is stated for distinct names
    only. *)
Section Sort.

Variable A : Type.
Variable comp : A -> A -> bool.

Fixpoint sort_insert (x : A) (l : list A) : list A :=
  match l with
  | [] => [x]
  | y :: rest => if comp y x then y :: sort_insert x rest else x :: l
  end.

Fixpoint std_sort (l : list A) : list A :=
  match l with
  | [] => []
  | x :: rest => sort_insert x (std_sort rest)
  end.

(** What [std::sort] establishes between an element and a later one: the
    later one is not less. *)
Definition ordered (x y : A) : Prop := comp y x = false.

End Sort.

(** The names are in ascending order. *)
Definition ascending (l : list string) : Prop :=
  StronglySorted (fun a b => String.leb a b = true) l.

(** [printOptionInfo]: sort [Values] (through the [const_cast]), then let the
    base class print the table.  The result pairs the parser after the call
    with what was printed. *)
Definition printOptionInfo (this : PassNameParser) (O : Option_t)
    (GlobalWidth : nat) : PassNameParser * list (string * cstr) :=
  let PNP := {| Opt := Opt this;
                Values := std_sort ValLessThan (Values this) |} in
  (PNP, cl.printOptionInfo (Values PNP) O GlobalWidth).

(** ** The registrar in its environment *)

(** Modelled from the spec: the Registry Notifier, which is not part of the
    sources at hand.  It knows the Descriptors registered so far, in
    registration order, lets a listener enumerate them, and notifies the
    listener of each later registration once. *)
Record World : Type := mkWorld {
  registry : list PassInfo;
  parser : PassNameParser
}.

Inductive Event : Type :=
| RegisterPass (P : PassInfo)                    (* a pass registers itself *)
| Initialize (O : Option_t)                      (* an option attaches *)
| PrintOptionInfo (O : Option_t) (GlobalWidth : nat).   (* help is rendered *)

Definition in_world (reg : list PassInfo) (o : Outcome PassNameParser)
    : Outcome World :=
  match o with
  | Returned p => Returned {| registry := reg; parser := p |}
  | Aborted msg p => Aborted msg {| registry := reg; parser := p |}
  | Undefined => Undefined
  end.

Section Run.

Variable ignorablePassImpl : Refinement.

Definition step (w : World) (e : Event) : Outcome World :=
  match e with
  | RegisterPass P =>
      in_world (registry w ++ [P])
               (passRegistered ignorablePassImpl (parser w) P)
  | Initialize Op =>
      in_world (registry w)
               (initialize ignorablePassImpl (registry w) (parser w) Op)
  | PrintOptionInfo Op GlobalWidth =>
      Returned {| registry := registry w;
                  parser := fst (printOptionInfo (parser w) Op GlobalWidth) |}
  end.

(** A run ends at the first call that does not return. *)
Fixpoint run (w : World) (es : list Event) : Outcome World :=
  match es with
  | [] => Returned w
  | e :: rest =>
      match step w e with
      | Returned w' => run w' rest
      | stop => stop
      end
  end.

End Run.

(** ** The descriptors handed to the refinement

    The refinement is reached through [ignorablePass] only:
    [passRegistered] evaluates [ignorablePass(P)] first, and the other
    members reach it through [passRegistered]. *)

Section Calls.

Variable ignorablePassImpl : Refinement.

Definition passRegistered_calls (P : PassInfo) : list PassInfo :=
  calls ignorablePassImpl (ignorablePass_eval P).

Fixpoint enumeratePasses_calls (known : list PassInfo) (this : PassNameParser)
    : list PassInfo :=
  match known with
  | [] => []
  | P :: rest =>
      passRegistered_calls P
      ++ match passEnumerate ignorablePassImpl this P with
         | Returned this' => enumeratePasses_calls rest this'
         | _ => []
         end
  end.

Definition step_calls (w : World) (e : Event) : list PassInfo :=
  match e with
  | RegisterPass P => passRegistered_calls P
  | Initialize Op =>
      enumeratePasses_calls (registry w)
        {| Opt := Some Op; Values := Values (parser w) |}
  | PrintOptionInfo _ _ => []
  end.

Fixpoint run_calls (w : World) (es : list Event) : list PassInfo :=
  match es with
  | [] => []
  | e :: rest =>
      step_calls w e
      ++ match step ignorablePassImpl w e with
         | Returned w' => run_calls w' rest
         | _ => []
         end
  end.

End Calls.

(** The world before anything happened. *)
Definition World_new : World :=
  {| registry := []; parser := PassNameParser_new |}.

(** The names of the entries, in table order. *)
Definition tokens (Values : list ValType) : list string := map fst Values.

(** The three base tests of [ignorablePass], as one decidable condition. *)
Definition base_rejects (P : PassInfo) : bool :=
  match getPassArgument P, getNormalCtor P with
  | Some (String _ _), Some _ => false
  | _, _ => true
  end.

(** A descriptor is eligible when [ignorablePass] answers [false]. *)
Definition eligible (impl : Refinement) (P : PassInfo) : Prop :=
  ignorablePass impl P = Some false.

(** ** The allow-list as the design document words it *)

Definition isspace (c : ascii) : bool :=
  let n := nat_of_ascii c in (n =? 32) || ((9 <=? n) && (n <=? 13)).

(** The whitespace-delimited entries of an allow-list. *)
Fixpoint split_ws (cur : string) (s : string) : list string :=
  match s with
  | EmptyString => match cur with EmptyString => [] | _ => [cur] end
  | String c rest =>
      if isspace c
      then match cur with
           | EmptyString => split_ws EmptyString rest
           | _ => cur :: split_ws EmptyString rest
           end
      else split_ws (cur ++ String c EmptyString) rest
  end.

Definition allow_list_entries (Args : string) : list string :=
  split_ws EmptyString Args.

(** The filter of the design document: exact membership of the token among
    the entries. *)
Definition admit_exact (Args : string) (P : PassInfo) : option bool :=
  match getPassArgument P with
  | None => None
  | Some token =>
      Some (existsb (String.eqb token) (allow_list_entries Args))
  end.

(** The entry that [passRegistered] adds for [P] under the name [arg]. *)
Definition entry_of (arg : string) (P : PassInfo) : ValType :=
  (arg, (P, getPassName P)).

(** An entry as [passRegistered] makes them: the pass is eligible, the name
    is its argument, the help string its name. *)
Definition entry_wf (impl : Refinement) (v : ValType) : Prop :=
  eligible impl (fst (snd v))
  /\ getPassArgument (fst (snd v)) = Some (fst v)
  /\ snd (snd v) = getPassName (fst (snd v)).

(** The parser is attached and holds the entry [v]. *)
Definition keeps (v : ValType) (p : PassNameParser) : Prop :=
  Opt p <> None /\ In v (Values p).

(** The passes selectable through the table. *)
Definition selectable (Values : list ValType) : list PassInfo :=
  map (fun v => fst (snd v)) Values.

(** The argument of a pass as a string (empty for the null pointer), and the
    entry that a successful registration of the pass adds. *)
Definition arg_of (P : PassInfo) : string :=
  match getPassArgument P with Some arg => arg | None => EmptyString end.

Definition pass_entry (P : PassInfo) : ValType := entry_of (arg_of P) P.

(** ** Sample descriptors *)

Module Examples.

Local Open Scope string_scope.

Definition pass (arg name : string) : PassInfo :=
  {| getPassName := Some name;
     getPassArgument := Some arg;
     getNormalCtor := Some 1 |}.

Definition mem2reg := pass "mem2reg" "Promote Memory to Register".
Definition dce := pass "dce" "Dead Code Elimination".
Definition adce := pass "adce" "Aggressive Dead Code Elimination".
Definition dse := pass "dse" "Dead Store Elimination".
Definition anders_aa :=
  pass "anders_aa" "Andersen's Interprocedural Alias Analysis".
Definition inline := pass "inline" "Function Integration/Inlining".
Definition aa := pass "aa" "Alias Analysis".
Definition opt := pass "opt" "Optimize".

(** A second pass that claims the argument of [dce]. *)
Definition dce_again := pass "dce" "Another Dead Code Elimination".

(** An analysis group: it has an argument but no constructor. *)
Definition dce_group : PassInfo :=
  {| getPassName := Some "Dead Code Elimination interface";
     getPassArgument := Some "dce";
     getNormalCtor := None |}.

(** A pass that is not selectable: no argument. *)
Definition unnamed : PassInfo :=
  {| getPassName := Some "Print module";
     getPassArgument := None;
     getNormalCtor := Some 2 |}.

(** The array of the usage note in the header. *)
Definition AllowedPassArgs : string := "-anders_aa -dse".

Definition base : Refinement := PassNameParser_ignorablePassImpl.

Definition allowed_only : Refinement :=
  FilteredPassNameParser_ignorablePassImpl (PassArgFilter AllowedPassArgs).

(** An attached parser that holds [dce]. *)
Definition attached_dce : PassNameParser :=
  {| Opt := Some 7; Values := [entry_of "dce" dce] |}.

(** A parser to which no option is attached. *)
Definition unattached : PassNameParser := PassNameParser_new.

(** A parser in registration order mem2reg, dce, adce. *)
Definition three : PassNameParser :=
  {| Opt := Some 7;
     Values := [entry_of "mem2reg" mem2reg; entry_of "dce" dce;
                entry_of "adce" adce] |}.

End Examples.

(** ** Notions for the further properties *)

(** The entry that a name selects: the one [findOption] points at. *)
Definition selected (Values : list ValType) (Name : string) : option ValType :=
  nth_error Values (cl.findOption Values Name).

(** [needle] occurs in [haystack]. *)
Definition occurs_in (needle haystack : string) : Prop :=
  exists before after, haystack = (before ++ needle ++ after)%string.

(** The entries whose pass the predicate [g] accepts, and a parser or a
    world cut down to them. *)
Definition admitted (g : PassInfo -> bool) (v : ValType) : bool :=
  g (fst (snd v)).

Definition restrict (g : PassInfo -> bool) (p : PassNameParser)
    : PassNameParser :=
  {| Opt := Opt p; Values := filter (admitted g) (Values p) |}.

Definition restrict_world (g : PassInfo -> bool) (w : World) : World :=
  {| registry := registry w; parser := restrict g (parser w) |}.

(** Nothing is lost from [w] to [w']: the registered passes and the entries
    of the table are still there, and an attached option stays attached. *)
Definition grows (w w' : World) : Prop :=
  incl (registry w) (registry w')
  /\ incl (Values (parser w)) (Values (parser w'))
  /\ (Opt (parser w) <> None -> Opt (parser w') <> None).

(** The call met no undefined behaviour. *)
Definition well_defined {S : Type} (o : Outcome S) : bool :=
  match o with
  | Undefined => false
  | _ => true
  end.

(** [PassArgFilter<Args>] on a pass whose argument is not null, as a total
    predicate: does the argument occur in [Args]? *)
Definition occurs_filter (Args : string) (P : PassInfo) : bool :=
  ptr_to_bool (strstr Args (arg_of P)).

(** The eligibility check answered for every registered pass, and, once an
    option is attached, every eligible registered pass has its entry in the
    table. *)
Definition registry_covered (impl : Refinement) (w : World) : Prop :=
  (forall Q, In Q (registry w) -> ignorablePass impl Q <> None)
  /\ (Opt (parser w) <> None ->
      forall P, In P (registry w) -> eligible impl P ->
                In (pass_entry P) (Values (parser w))).

(** * Properties *)

Unset Implicit Arguments.

(** ** The table operations *)

Module clFacts.

Lemma findOption_le (Values : list ValType) (Name : string) :
  cl.findOption Values Name <= cl.getNumOptions Values.
Proof.
  unfold cl.getNumOptions.
  induction Values as [|v rest IH]; simpl; [lia|].
  destruct (String.eqb (fst v) Name); lia.
Qed.

(** [findOption] answers [getNumOptions] exactly when the name is new. *)
Lemma findOption_absent (Values : list ValType) (Name : string) :
  cl.findOption Values Name = cl.getNumOptions Values <->
  ~ In Name (tokens Values).
Proof.
  unfold cl.getNumOptions, tokens.
  induction Values as [|v rest IH]; simpl.
  - tauto.
  - destruct (String.eqb_spec (fst v) Name) as [E|NE].
    + split; [discriminate | intros H; exfalso; apply H; now left].
    + rewrite Nat.succ_inj_wd, IH. tauto.
Qed.

Lemma findOption_test (Values : list ValType) (Name : string) :
  negb (cl.findOption Values Name =? cl.getNumOptions Values) = true <->
  In Name (tokens Values).
Proof.
  rewrite negb_true_iff, Nat.eqb_neq, findOption_absent.
  split; [|tauto].
  intros H. destruct (in_dec string_dec Name (tokens Values)); tauto.
Qed.

End clFacts.

(** ** The eligibility check *)

Section Eligibility.

Variable impl : Refinement.

Lemma base_rejects_iff (P : PassInfo) :
  base_rejects P = true <->
  getPassArgument P = None \/ getPassArgument P = Some EmptyString
  \/ getNormalCtor P = None.
Proof.
  unfold base_rejects.
  destruct (getPassArgument P) as [[|c s]|], (getNormalCtor P);
    intuition congruence.
Qed.

Lemma ignorablePass_unfold (P : PassInfo) :
  ignorablePass impl P = if base_rejects P then Some true else impl P.
Proof.
  unfold ignorablePass, ignorablePass_eval, base_rejects.
  destruct (getPassArgument P) as [[|c s]|]; try reflexivity.
  destruct (getNormalCtor P); simpl; [|reflexivity].
  now destruct (impl P).
Qed.

Lemma eligible_inv (P : PassInfo) :
  eligible impl P ->
  exists c rest ctor,
    getPassArgument P = Some (String c rest)
    /\ getNormalCtor P = Some ctor /\ impl P = Some false.
Proof.
  unfold eligible. rewrite ignorablePass_unfold. unfold base_rejects.
  destruct (getPassArgument P) as [[|c s]|]; try discriminate.
  destruct (getNormalCtor P) as [ctor|]; try discriminate.
  intros H. now exists c, s, ctor.
Qed.

(** What [passRegistered] does with an eligible descriptor once an option
    is attached. *)
Lemma passRegistered_eligible (this : PassNameParser) (P : PassInfo)
      (arg : string) (Op : Option_t) :
  eligible impl P -> getPassArgument P = Some arg -> Opt this = Some Op ->
  passRegistered impl this P =
    if in_dec string_dec arg (tokens (Values this))
    then Aborted (duplicate_message arg) this
    else Returned {| Opt := Opt this;
                     Values := Values this ++ [(arg, (P, getPassName P))] |}.
Proof.
  intros El Harg Hopt. unfold passRegistered.
  rewrite El, Harg, Hopt. simpl.
  destruct (in_dec string_dec arg (tokens (Values this))) as [i|n].
  - apply clFacts.findOption_test in i. now rewrite i.
  - destruct (negb _) eqn:E; [|reflexivity].
    apply clFacts.findOption_test in E. contradiction.
Qed.

Lemma passRegistered_dropped (this : PassNameParser) (P : PassInfo) :
  ignorablePass impl P = Some true
  \/ (Opt this = None /\ ignorablePass impl P = Some false) ->
  passRegistered impl this P = Returned this.
Proof.
  unfold passRegistered.
  intros [H|[Hopt H]]; rewrite H; [reflexivity|].
  now rewrite Hopt.
Qed.

End Eligibility.

(** ** Returning calls and invariants of runs *)

Section Invariants.

Variable impl : Refinement.

(** A call of [passRegistered] that returns either changed nothing or
    appended the entry of an eligible descriptor with a new name. *)
Lemma passRegistered_Returned (this this' : PassNameParser) (P : PassInfo) :
  passRegistered impl this P = Returned this' ->
  this' = this
  \/ exists arg Op,
       eligible impl P /\ getPassArgument P = Some arg
       /\ Opt this = Some Op /\ ~ In arg (tokens (Values this))
       /\ this' = {| Opt := Opt this;
                     Values := Values this ++ [(arg, (P, getPassName P))] |}.
Proof.
  unfold passRegistered.
  destruct (ignorablePass impl P) as [[|]|] eqn:Ei; simpl;
    try (intros [= <-]; now left); try discriminate.
  destruct (Opt this) as [Op|] eqn:Eo; simpl;
    try (intros [= <-]; now left).
  destruct (getPassArgument P) as [arg|] eqn:Ea; try discriminate.
  destruct (negb _) eqn:Ef; try discriminate.
  intros [= <-]. right. exists arg, Op. repeat split; auto.
  intros Hin. apply clFacts.findOption_test in Hin. congruence.
Qed.

Variable Inv : PassNameParser -> Prop.

Hypothesis Inv_add :
  forall this P arg Op,
    Inv this -> eligible impl P -> getPassArgument P = Some arg ->
    Opt this = Some Op -> ~ In arg (tokens (Values this)) ->
    Inv {| Opt := Opt this;
           Values := Values this ++ [(arg, (P, getPassName P))] |}.

Hypothesis Inv_attach :
  forall this Op, Inv this -> Inv {| Opt := Some Op; Values := Values this |}.

Hypothesis Inv_sort :
  forall this,
    Inv this ->
    Inv {| Opt := Opt this; Values := std_sort ValLessThan (Values this) |}.

Lemma passRegistered_inv this this' P :
  Inv this -> passRegistered impl this P = Returned this' -> Inv this'.
Proof.
  intros HI H. apply passRegistered_Returned in H.
  destruct H as [->|(arg & Op & El & Ha & Ho & Hn & ->)]; eauto.
Qed.

Lemma enumeratePasses_inv known : forall this this',
  Inv this -> enumeratePasses impl known this = Returned this' -> Inv this'.
Proof.
  induction known as [|P rest IH]; simpl; intros this this' HI H.
  - now injection H as <-.
  - unfold passEnumerate in H.
    destruct (passRegistered impl this P) as [t| |] eqn:E; try discriminate.
    eapply IH; [|exact H]. eapply passRegistered_inv; eauto.
Qed.

Lemma step_inv w w' e :
  Inv (parser w) -> step impl w e = Returned w' -> Inv (parser w').
Proof.
  destruct e as [P|Op|Op W]; simpl; intros HI H.
  - destruct (passRegistered impl (parser w) P) as [t| |] eqn:E;
      try discriminate.
    injection H as <-. simpl. eapply passRegistered_inv; eauto.
  - unfold initialize in H.
    destruct (enumeratePasses impl _ _) as [t| |] eqn:E; try discriminate.
    injection H as <-. simpl.
    eapply enumeratePasses_inv; [|exact E]. now apply Inv_attach.
  - injection H as <-. simpl. now apply Inv_sort.
Qed.

Lemma run_inv es : forall w w',
  Inv (parser w) -> run impl w es = Returned w' -> Inv (parser w').
Proof.
  induction es as [|e rest IH]; simpl; intros w w' HI H.
  - now injection H as <-.
  - destruct (step impl w e) as [w1| |] eqn:E; try discriminate.
    eapply IH; [|exact H]. eapply step_inv; eauto.
Qed.

End Invariants.

(** ** The order on names *)

Module StringOrder.

Lemma ascii_compare_refl (a : ascii) : Ascii.compare a a = Eq.
Proof. unfold Ascii.compare. apply N.compare_refl. Qed.

Lemma compare_refl (s : string) : String.compare s s = Eq.
Proof.
  induction s as [|a s IH]; simpl; [reflexivity|].
  now rewrite ascii_compare_refl.
Qed.

Lemma ascii_compare_lt_trans (a b c : ascii) :
  Ascii.compare a b = Lt -> Ascii.compare b c = Lt -> Ascii.compare a c = Lt.
Proof.
  unfold Ascii.compare. rewrite !N.compare_lt_iff. apply N.lt_trans.
Qed.

Lemma compare_lt_trans : forall a b c : string,
  String.compare a b = Lt -> String.compare b c = Lt ->
  String.compare a c = Lt.
Proof.
  induction a as [|x a IH]; intros [|y b] [|z c]; simpl;
    try discriminate; try reflexivity.
  destruct (Ascii.compare x y) eqn:Exy; try discriminate.
  - apply Ascii.compare_eq_iff in Exy. subst y.
    destruct (Ascii.compare x z); try discriminate; eauto.
  - intros _.
    destruct (Ascii.compare y z) eqn:Eyz; try discriminate.
    + apply Ascii.compare_eq_iff in Eyz. subst z. now rewrite Exy.
    + intros _. now rewrite (ascii_compare_lt_trans _ _ _ Exy Eyz).
Qed.

Lemma ltb_asym (a b : string) :
  String.ltb a b = true -> String.ltb b a = false.
Proof.
  unfold String.ltb. rewrite (String.compare_antisym b a).
  now destruct (String.compare a b).
Qed.

Lemma ltb_trans (a b c : string) :
  String.ltb a b = true -> String.ltb b c = true -> String.ltb a c = true.
Proof.
  unfold String.ltb. intros H1 H2.
  destruct (String.compare a b) eqn:E1; try discriminate.
  destruct (String.compare b c) eqn:E2; try discriminate.
  now rewrite (compare_lt_trans _ _ _ E1 E2).
Qed.

(** [b] is not less than [a] exactly when [a <= b]. *)
Lemma not_ltb_leb (a b : string) :
  String.ltb b a = false <-> String.leb a b = true.
Proof.
  unfold String.ltb, String.leb. rewrite (String.compare_antisym b a).
  destruct (String.compare a b); simpl; intuition congruence.
Qed.

Lemma leb_ltb_or_eq (a b : string) :
  String.leb a b = true -> String.ltb a b = true \/ a = b.
Proof.
  unfold String.ltb, String.leb.
  destruct (String.compare a b) eqn:E; try discriminate; auto.
  apply String.compare_eq_iff in E. auto.
Qed.

Lemma leb_trans (a b c : string) :
  String.leb a b = true -> String.leb b c = true -> String.leb a c = true.
Proof.
  intros H1 H2.
  destruct (leb_ltb_or_eq _ _ H1) as [L1| ->]; [|exact H2].
  destruct (leb_ltb_or_eq _ _ H2) as [L2| <-]; [|exact H1].
  apply not_ltb_leb, ltb_asym. eapply ltb_trans; eauto.
Qed.

End StringOrder.

(** ** [std_sort] *)

Section SortFacts.

Variable A : Type.
Variable comp : A -> A -> bool.

Hypothesis comp_asym : forall x y, comp x y = true -> comp y x = false.

Lemma sort_insert_perm (x : A) (l : list A) :
  Permutation (sort_insert comp x l) (x :: l).
Proof.
  induction l as [|y rest IH]; simpl; [reflexivity|].
  destruct (comp y x); [|reflexivity].
  rewrite IH. apply perm_swap.
Qed.

Lemma std_sort_perm (l : list A) : Permutation (std_sort comp l) l.
Proof.
  induction l as [|x rest IH]; simpl; [reflexivity|].
  rewrite sort_insert_perm. now constructor.
Qed.

Lemma sort_insert_hd (z x : A) (l : list A) :
  ordered comp z x -> HdRel (ordered comp) z l ->
  HdRel (ordered comp) z (sort_insert comp x l).
Proof.
  intros Hzx Hz. destruct l as [|y rest]; simpl; [now constructor|].
  inversion Hz; subst. destruct (comp y x); now constructor.
Qed.

Lemma sort_insert_sorted (x : A) (l : list A) :
  Sorted (ordered comp) l -> Sorted (ordered comp) (sort_insert comp x l).
Proof.
  induction 1 as [|y rest Hs IH Hd]; simpl.
  - repeat constructor.
  - destruct (comp y x) eqn:E.
    + constructor; [exact IH|].
      apply sort_insert_hd; [|exact Hd]. now apply comp_asym.
    + constructor; [now constructor|]. now constructor.
Qed.

Lemma std_sort_sorted (l : list A) : Sorted (ordered comp) (std_sort comp l).
Proof.
  induction l as [|x rest IH]; simpl; [constructor|].
  now apply sort_insert_sorted.
Qed.

(** An ordered range is left as it is. *)
Lemma std_sort_ordered_id (l : list A) :
  Sorted (ordered comp) l -> std_sort comp l = l.
Proof.
  induction 1 as [|x rest Hs IH Hd]; simpl; [reflexivity|].
  rewrite IH. destruct Hd as [|y rest' Hxy]; simpl; [reflexivity|].
  unfold ordered in Hxy. now rewrite Hxy.
Qed.

Lemma std_sort_idempotent (l : list A) :
  std_sort comp (std_sort comp l) = std_sort comp l.
Proof. apply std_sort_ordered_id, std_sort_sorted. Qed.

End SortFacts.

Lemma ValLessThan_asym (x y : ValType) :
  ValLessThan x y = true -> ValLessThan y x = false.
Proof. apply StringOrder.ltb_asym. Qed.

Lemma ordered_tokens_ascending (l : list ValType) :
  Sorted (ordered ValLessThan) l -> ascending (tokens l).
Proof.
  intros H. apply Sorted_StronglySorted.
  - intros a b c. apply StringOrder.leb_trans.
  - induction H as [|x rest Hs IH Hd]; simpl; constructor; auto.
    destruct Hd as [|y rest' Hxy]; simpl; constructor.
    now apply StringOrder.not_ltb_leb.
Qed.

(** ** Entries of reachable tables *)

Section Entries.

Variable impl : Refinement.

Lemma entries_wf (es : list Event) (w : World) :
  run impl World_new es = Returned w ->
  Forall (entry_wf impl) (Values (parser w)).
Proof.
  apply (run_inv impl (fun p => Forall (entry_wf impl) (Values p))).
  - intros this P arg Op HI El Ha _ _. simpl.
    apply Forall_app. split; [exact HI|].
    constructor; [|constructor]. unfold entry_wf. simpl. auto.
  - intros this Op HI. exact HI.
  - intros this HI. simpl.
    eapply Permutation_Forall; [|exact HI].
    symmetry. apply std_sort_perm.
  - constructor.
Qed.

Lemma selectable_eligible (es : list Event) (w : World) (P : PassInfo) :
  run impl World_new es = Returned w ->
  In P (selectable (Values (parser w))) -> eligible impl P.
Proof.
  intros Hrun Hin. apply entries_wf in Hrun.
  unfold selectable in Hin. apply in_map_iff in Hin.
  destruct Hin as (v & <- & Hv).
  rewrite Forall_forall in Hrun. now apply Hrun.
Qed.

End Entries.

(** ** The eligibility filter and ignored notifications *)

(** C5. A descriptor whose argument is null or empty, or whose constructor is
    null, is rejected by [ignorablePass] whatever the refinement is (even one
    that is undefined on it): the check answers [true], a notification for it
    changes nothing, and no run ever makes it selectable. *)
Theorem ignorablePass_rejects_unselectable
    (impl : Refinement) (P : PassInfo) :
  getPassArgument P = None \/ getPassArgument P = Some EmptyString
  \/ getNormalCtor P = None ->
  ignorablePass impl P = Some true
  /\ (forall this, passRegistered impl this P = Returned this)
  /\ (forall es w, run impl World_new es = Returned w ->
                   ~ In P (selectable (Values (parser w)))).
Proof.
  intros H. apply base_rejects_iff in H.
  assert (Hign : ignorablePass impl P = Some true)
    by (rewrite ignorablePass_unfold; now rewrite H).
  split; [exact Hign|]. split.
  - intros this. apply passRegistered_dropped. now left.
  - intros es w Hrun Hin.
    eapply selectable_eligible in Hin; [|exact Hrun].
    unfold eligible in Hin. congruence.
Qed.

Lemma ignorablePass_rejects_unselectable_witness :
  getNormalCtor Examples.dce_group = None
  /\ ignorablePass Examples.base Examples.dce_group = Some true
  /\ passRegistered Examples.base Examples.attached_dce Examples.dce_group
     = Returned Examples.attached_dce.
Proof.
  split; [reflexivity|].
  destruct (ignorablePass_rejects_unselectable Examples.base
              Examples.dce_group) as (H1 & H2 & _).
  - right. right. reflexivity.
  - split; [exact H1 | apply H2].
Defined.

(** C7. When the eligibility check answers [b] for a notified descriptor, and
    either [b] is true (the descriptor is rejected) or no option is attached,
    the notification is a no-op: [passRegistered] (and [passEnumerate])
    return, nothing is written to [cerr], and the parser, with its table, is
    as before. *)
Theorem passRegistered_noop
    (impl : Refinement) (this : PassNameParser) (P : PassInfo) (b : bool) :
  ignorablePass impl P = Some b ->
  b = true \/ Opt this = None ->
  passRegistered impl this P = Returned this
  /\ passEnumerate impl this P = Returned this.
Proof.
  intros Hb Hor.
  assert (H : passRegistered impl this P = Returned this).
  { apply passRegistered_dropped.
    destruct b; [now left|].
    destruct Hor as [|Hopt]; [discriminate|]. now right. }
  split; exact H.
Qed.

Lemma passRegistered_noop_witness :
  ignorablePass Examples.base Examples.mem2reg = Some false
  /\ Opt Examples.unattached = None
  /\ passRegistered Examples.base Examples.unattached Examples.mem2reg
     = Returned Examples.unattached.
Proof.
  split; [reflexivity|]. split; [reflexivity|].
  apply (passRegistered_noop Examples.base Examples.unattached
           Examples.mem2reg false).
  - reflexivity.
  - right. reflexivity.
Defined.

(** C10. The duplicate test is made only for an eligible descriptor that
    arrives while an option is attached.  A descriptor whose argument is
    already in the table, but which the eligibility check rejects or which
    arrives while no option is attached, is dropped: the registration
    returns, [abort()] is not reached, and the parser is unchanged. *)
Theorem duplicate_test_skipped_when_dropped
    (impl : Refinement) (w : World) (P : PassInfo) (arg : string) (b : bool) :
  getPassArgument P = Some arg ->
  In arg (tokens (Values (parser w))) ->
  ignorablePass impl P = Some b ->
  b = true \/ Opt (parser w) = None ->
  step impl w (RegisterPass P)
  = Returned {| registry := registry w ++ [P]; parser := parser w |}.
Proof.
  intros _ _ Hb Hor. simpl.
  rewrite passRegistered_dropped; [reflexivity|].
  destruct b; [now left|].
  destruct Hor as [|Hopt]; [discriminate|]. now right.
Qed.

Lemma duplicate_test_skipped_when_dropped_witness :
  let w := {| registry := [Examples.dce]; parser := Examples.attached_dce |} in
  In "dce"%string (tokens (Values (parser w)))
  /\ ignorablePass Examples.base Examples.dce_group = Some true
  /\ step Examples.base w (RegisterPass Examples.dce_group)
     = Returned {| registry := [Examples.dce; Examples.dce_group];
                   parser := Examples.attached_dce |}.
Proof.
  intros w. split; [left; reflexivity|]. split; [reflexivity|].
  apply (duplicate_test_skipped_when_dropped Examples.base w
           Examples.dce_group "dce"%string true).
  - reflexivity.
  - left. reflexivity.
  - reflexivity.
  - left. reflexivity.
Defined.

(** ** Sequences of deliveries *)

Section Deliveries.

Variable impl : Refinement.

Lemma run_app (es1 es2 : list Event) : forall w,
  run impl w (es1 ++ es2)
  = match run impl w es1 with
    | Returned w' => run impl w' es2
    | stop => stop
    end.
Proof.
  induction es1 as [|e rest IH]; simpl; intros w; [reflexivity|].
  destruct (step impl w e); auto.
Qed.

(** Live notifications are deliveries through [passRegistered], like a
    replay. *)
Lemma run_RegisterPass (ps : list PassInfo) : forall w this',
  enumeratePasses impl ps (parser w) = Returned this' ->
  run impl w (map RegisterPass ps)
  = Returned {| registry := registry w ++ ps; parser := this' |}.
Proof.
  induction ps as [|P rest IH]; simpl; intros w this' H.
  - injection H as <-. rewrite app_nil_r. now destruct w.
  - unfold passEnumerate in H.
    destruct (passRegistered impl (parser w) P) as [t| |] eqn:E;
      try discriminate.
    simpl. rewrite (IH _ this') by exact H.
    simpl. now rewrite <- app_assoc.
Qed.

Lemma eligible_arg (P : PassInfo) :
  eligible impl P -> getPassArgument P = Some (arg_of P).
Proof.
  intros El. destruct (eligible_inv impl P El) as (c & rest & ctor & Ha & _).
  unfold arg_of. now rewrite Ha.
Qed.

(** Without an attached option every eligible descriptor is dropped. *)
Lemma enumeratePasses_unattached (ps : list PassInfo) (this : PassNameParser) :
  Opt this = None -> Forall (eligible impl) ps ->
  enumeratePasses impl ps this = Returned this.
Proof.
  intros Hopt. induction 1 as [|P rest El _ IH]; simpl; [reflexivity|].
  unfold passEnumerate. rewrite passRegistered_dropped; auto.
Qed.

(** With an attached option, eligible descriptors whose arguments are new
    and pairwise distinct are appended in the order of delivery. *)
Lemma enumeratePasses_fresh (ps : list PassInfo) : forall this Op,
  Opt this = Some Op -> Forall (eligible impl) ps ->
  NoDup (tokens (Values this) ++ map arg_of ps) ->
  enumeratePasses impl ps this
  = Returned {| Opt := Opt this;
                Values := Values this ++ map pass_entry ps |}.
Proof.
  induction ps as [|P rest IH]; simpl; intros this Op Hopt Hel Hnd.
  - rewrite app_nil_r. now destruct this.
  - inversion Hel as [|? ? El Hel']; subst.
    unfold passEnumerate.
    rewrite (passRegistered_eligible impl this P (arg_of P) Op El
               (eligible_arg P El) Hopt).
    destruct (in_dec string_dec (arg_of P) (tokens (Values this))) as [i|n].
    + exfalso. apply NoDup_remove_2 in Hnd. apply Hnd.
      apply in_or_app. now left.
    + rewrite (IH _ Op); simpl; auto.
      * now rewrite <- app_assoc.
      * unfold tokens. rewrite map_app. simpl.
        rewrite <- app_assoc. exact Hnd.
Qed.

Lemma tokens_pass_entries (ps : list PassInfo) :
  tokens (map pass_entry ps) = map arg_of ps.
Proof. unfold tokens. rewrite map_map. reflexivity. Qed.

Lemma selectable_pass_entries (ps : list PassInfo) :
  selectable (map pass_entry ps) = ps.
Proof. unfold selectable. rewrite map_map. simpl. apply map_id. Qed.

Lemma eligible_args (ps : list PassInfo) :
  Forall (eligible impl) ps ->
  map getPassArgument ps = map Some (map arg_of ps).
Proof.
  induction 1 as [|P rest El _ IH]; simpl; [reflexivity|].
  now rewrite IH, (eligible_arg P El).
Qed.

End Deliveries.

(** ** Uniqueness of names *)

Lemma NoDup_snoc {A : Type} (l : list A) (a : A) :
  NoDup l -> ~ In a l -> NoDup (l ++ [a]).
Proof.
  intros Hnd Hn. apply (Permutation_NoDup (l := a :: l)).
  - apply Permutation_cons_append.
  - now constructor.
Qed.

(** C8. Token uniqueness is an invariant: in every state reached from the
    initial one by a sequence of registrations, attachments and help
    renderings that completes without [abort()], the names of the entries are
    pairwise distinct. *)
Theorem token_uniqueness_invariant
    (impl : Refinement) (es : list Event) (w : World) :
  run impl World_new es = Returned w ->
  NoDup (tokens (Values (parser w))).
Proof.
  apply (run_inv impl (fun p => NoDup (tokens (Values p)))).
  - intros this P arg Op HI _ _ _ Hn. simpl.
    unfold tokens. rewrite map_app. simpl. now apply NoDup_snoc.
  - intros this Op HI. exact HI.
  - intros this HI. simpl.
    eapply Permutation_NoDup; [|exact HI].
    apply Permutation_map. symmetry. apply std_sort_perm.
  - constructor.
Qed.

Lemma token_uniqueness_invariant_witness :
  let es := [RegisterPass Examples.mem2reg; Initialize 7;
             RegisterPass Examples.dce; PrintOptionInfo 7 80;
             RegisterPass Examples.adce] in
  let w := {| registry := [Examples.mem2reg; Examples.dce; Examples.adce];
              parser := {| Opt := Some 7;
                           Values := [entry_of "dce" Examples.dce;
                                      entry_of "mem2reg" Examples.mem2reg;
                                      entry_of "adce" Examples.adce] |} |} in
  run Examples.base World_new es = Returned w
  /\ NoDup (tokens (Values (parser w))).
Proof.
  intros es w. split; [reflexivity|].
  apply (token_uniqueness_invariant Examples.base es w). reflexivity.
Defined.

(** ** Replay on attachment *)

(** C3. Eligible descriptors with pairwise distinct arguments, some
    registered before the option attaches (and replayed by [initialize]) and
    some after: the run returns, and the table then selects exactly those
    descriptors, each once, under its argument. *)
Theorem replay_then_live_registration
    (impl : Refinement) (pre post : list PassInfo) (Op : Option_t) :
  Forall (eligible impl) (pre ++ post) ->
  NoDup (map getPassArgument (pre ++ post)) ->
  exists w,
    run impl World_new
        (map RegisterPass pre ++ Initialize Op :: map RegisterPass post)
    = Returned w
    /\ selectable (Values (parser w)) = pre ++ post
    /\ map Some (tokens (Values (parser w))) = map getPassArgument (pre ++ post)
    /\ NoDup (tokens (Values (parser w)))
    /\ (forall t, In t (tokens (Values (parser w))) <->
                  exists P, In P (pre ++ post) /\ getPassArgument P = Some t).
Proof.
  intros Hel Hnd.
  assert (Hargs := eligible_args impl (pre ++ post) Hel).
  assert (Hnd' : NoDup (map arg_of (pre ++ post))).
  { rewrite Hargs in Hnd. eapply NoDup_map_inv. exact Hnd. }
  apply Forall_app in Hel. destruct Hel as [Hpre Hpost].
  set (this1 := {| Opt := Some Op; Values := map pass_entry pre |}).
  set (this2 := {| Opt := Some Op; Values := map pass_entry (pre ++ post) |}).
  exists {| registry := pre ++ post; parser := this2 |}.
  split; [|split; [|split; [|split]]]; simpl.
  - rewrite run_app.
    rewrite (run_RegisterPass impl pre World_new PassNameParser_new)
      by (apply enumeratePasses_unattached; auto).
    simpl. unfold initialize.
    change (Values PassNameParser_new) with (@nil ValType).
    rewrite (enumeratePasses_fresh impl pre
               {| Opt := Some Op; Values := [] |} Op); auto.
    + simpl. fold this1.
      rewrite (run_RegisterPass impl post
                 {| registry := pre; parser := this1 |} this2);
        [reflexivity|].
      simpl.
      rewrite (enumeratePasses_fresh impl post this1 Op); auto.
      * unfold this1, this2. simpl. now rewrite map_app.
      * simpl. rewrite tokens_pass_entries, <- map_app. exact Hnd'.
    + simpl. rewrite map_app in Hnd'. now apply NoDup_app_remove_r in Hnd'.
  - apply selectable_pass_entries.
  - rewrite tokens_pass_entries. now rewrite Hargs.
  - now rewrite tokens_pass_entries.
  - intros t. rewrite tokens_pass_entries, in_map_iff.
    assert (Hall : Forall (eligible impl) (pre ++ post))
      by (apply Forall_app; auto).
    rewrite Forall_forall in Hall.
    split; intros (P & H1 & H2); exists P; split; auto.
    + rewrite (eligible_arg impl P (Hall P H2)). now f_equal.
    + rewrite (eligible_arg impl P (Hall P H1)) in H2. congruence.
Qed.

Lemma replay_then_live_registration_witness :
  exists w,
    run Examples.base World_new
        [RegisterPass Examples.mem2reg; RegisterPass Examples.dce;
         Initialize 7; RegisterPass Examples.adce]
    = Returned w
    /\ selectable (Values (parser w))
       = [Examples.mem2reg; Examples.dce; Examples.adce].
Proof.
  destruct (replay_then_live_registration Examples.base
              [Examples.mem2reg; Examples.dce] [Examples.adce] 7)
    as (w & Hrun & Hsel & _).
  - repeat constructor.
  - repeat constructor; simpl; intuition discriminate.
  - exists w. split; [exact Hrun | exact Hsel].
Defined.

(** ** Duplicate arguments *)

Section Duplicates.

Variable impl : Refinement.

Lemma enumeratePasses_app (ps qs : list PassInfo) : forall this,
  enumeratePasses impl (ps ++ qs) this
  = match enumeratePasses impl ps this with
    | Returned this' => enumeratePasses impl qs this'
    | stop => stop
    end.
Proof.
  induction ps as [|P rest IH]; simpl; intros this; [reflexivity|].
  destruct (passEnumerate impl this P); auto.
Qed.

(** The first registration of [arg], once it returned on an attached
    parser, has left its entry in the table. *)
Lemma first_registration (this this1 : PassNameParser) (P1 : PassInfo)
      (arg : string) :
  Opt this <> None -> eligible impl P1 -> getPassArgument P1 = Some arg ->
  passRegistered impl this P1 = Returned this1 ->
  Opt this1 <> None /\ In (entry_of arg P1) (Values this1).
Proof.
  intros Hopt El Ha H.
  destruct (Opt this) as [Op|] eqn:Eo; [|congruence].
  rewrite (passRegistered_eligible impl this P1 arg Op El Ha Eo) in H.
  destruct (in_dec string_dec arg (tokens (Values this))); [discriminate|].
  injection H as <-. simpl. split; [congruence|].
  apply in_or_app. right. now left.
Qed.

(** A second registration of [arg] on an attached parser that holds an
    entry for it: the message, then [abort()], with the parser as it was. *)
Lemma second_registration (this : PassNameParser) (P1 P2 : PassInfo)
      (arg : string) :
  Opt this <> None -> In (entry_of arg P1) (Values this) ->
  eligible impl P2 -> getPassArgument P2 = Some arg ->
  passRegistered impl this P2 = Aborted (duplicate_message arg) this.
Proof.
  intros Hopt Hin El Ha.
  destruct (Opt this) as [Op|] eqn:Eo; [|congruence].
  rewrite (passRegistered_eligible impl this P2 arg Op El Ha Eo).
  destruct (in_dec string_dec arg (tokens (Values this))) as [i|n];
    [reflexivity|].
  exfalso. apply n. unfold tokens.
  change arg with (fst (entry_of arg P1)). now apply in_map.
Qed.

Lemma keeps_add v this P arg Op :
  keeps v this -> eligible impl P -> getPassArgument P = Some arg ->
  Opt this = Some Op -> ~ In arg (tokens (Values this)) ->
  keeps v {| Opt := Opt this;
             Values := Values this ++ [(arg, (P, getPassName P))] |}.
Proof.
  intros [H1 H2] _ _ _ _. split; simpl; [exact H1|].
  apply in_or_app. now left.
Qed.

Lemma keeps_attach v this Op :
  keeps v this -> keeps v {| Opt := Some Op; Values := Values this |}.
Proof. intros [_ H2]. split; simpl; [discriminate | exact H2]. Qed.

Lemma keeps_sort v this :
  keeps v this ->
  keeps v {| Opt := Opt this; Values := std_sort ValLessThan (Values this) |}.
Proof.
  intros [H1 H2]. split; simpl; [exact H1|].
  eapply Permutation_in; [|exact H2]. symmetry. apply std_sort_perm.
Qed.

End Duplicates.

(** C4. Two eligible descriptors [P1] and [P2] with the same argument [arg],
    delivered to an attached parser.  Once the delivery of [P1] has returned,
    and whatever returning calls follow (registrations, attachments, help
    renderings), the delivery of [P2] writes the message that names [arg] and
    aborts; the run ends there with that one report, and the entry of [P1] is
    still in the table, which the aborting call leaves as it found it.  The
    same holds when the deliveries are those of a replay.  The report is the
    text of the source with [arg] after the dash, so that [arg] occurs in
    it. *)
Theorem duplicate_token_aborts
    (impl : Refinement) (P1 P2 : PassInfo) (arg : string) :
  eligible impl P1 -> eligible impl P2 ->
  getPassArgument P1 = Some arg -> getPassArgument P2 = Some arg ->
  (forall (w w1 w2 : World) (es later : list Event),
      Opt (parser w) <> None ->
      step impl w (RegisterPass P1) = Returned w1 ->
      run impl w1 es = Returned w2 ->
      let stopped := {| registry := registry w2 ++ [P2]; parser := parser w2 |} in
      In (entry_of arg P1) (Values (parser w2))
      /\ step impl w2 (RegisterPass P2)
         = Aborted (duplicate_message arg) stopped
      /\ run impl w (RegisterPass P1 :: es ++ RegisterPass P2 :: later)
         = Aborted (duplicate_message arg) stopped)
  /\ (forall (this this1 this2 : PassNameParser) (mid later : list PassInfo),
         Opt this <> None ->
         passRegistered impl this P1 = Returned this1 ->
         enumeratePasses impl mid this1 = Returned this2 ->
         In (entry_of arg P1) (Values this2)
         /\ enumeratePasses impl (P1 :: mid ++ P2 :: later) this
            = Aborted (duplicate_message arg) this2)
  /\ duplicate_message arg
     = ("Two passes with the same argument (-" ++ arg
          ++ ") attempted to be registered!"
          ++ String "010"%char EmptyString)%string
  /\ occurs_in arg (duplicate_message arg).
Proof.
  intros El1 El2 Ha1 Ha2.
  assert (Hmsg : occurs_in arg (duplicate_message arg)).
  { exists "Two passes with the same argument (-"%string,
           (") attempted to be registered!"
              ++ String "010"%char EmptyString)%string.
    reflexivity. }
  refine (conj _ (conj _ (conj eq_refl Hmsg))).
  - intros w w1 w2 es later Hopt Hstep Hrun stopped.
    simpl in Hstep.
    destruct (passRegistered impl (parser w) P1) as [this1| |] eqn:E1;
      try discriminate.
    injection Hstep as <-.
    pose proof (first_registration impl _ _ _ _ Hopt El1 Ha1 E1) as Hk.
    assert (Hk2 : keeps (entry_of arg P1) (parser w2)).
    { refine (run_inv impl (keeps (entry_of arg P1)) _ _ _ es _ w2 _ Hrun).
      - intros; eapply keeps_add; eauto.
      - intros; now apply keeps_attach.
      - intros; now apply keeps_sort.
      - exact Hk. }
    destruct Hk2 as [Hopt2 Hin2].
    assert (Hstop : step impl w2 (RegisterPass P2)
                    = Aborted (duplicate_message arg) stopped).
    { simpl.
      now rewrite (second_registration impl _ P1 P2 arg Hopt2 Hin2 El2 Ha2). }
    split; [exact Hin2|]. split; [exact Hstop|].
    change (run impl w (RegisterPass P1 :: es ++ RegisterPass P2 :: later))
      with (match step impl w (RegisterPass P1) with
            | Returned w' => run impl w' (es ++ RegisterPass P2 :: later)
            | stop => stop
            end).
    simpl step. rewrite E1. simpl in_world. cbv iota beta.
    rewrite run_app, Hrun.
    change (run impl w2 (RegisterPass P2 :: later))
      with (match step impl w2 (RegisterPass P2) with
            | Returned w' => run impl w' later
            | stop => stop
            end).
    now rewrite Hstop.
  - intros this this1 this2 mid later Hopt H1 Hmid.
    pose proof (first_registration impl _ _ _ _ Hopt El1 Ha1 H1) as Hk.
    assert (Hk2 : keeps (entry_of arg P1) this2).
    { refine (enumeratePasses_inv impl (keeps (entry_of arg P1)) _ mid
                this1 this2 Hk Hmid).
      intros; eapply keeps_add; eauto. }
    destruct Hk2 as [Hopt2 Hin2].
    split; [exact Hin2|].
    simpl. unfold passEnumerate at 1. rewrite H1.
    rewrite enumeratePasses_app, Hmid. simpl. unfold passEnumerate.
    now rewrite (second_registration impl _ P1 P2 arg Hopt2 Hin2 El2 Ha2).
Qed.

Lemma duplicate_token_aborts_witness :
  let w := {| registry := []; parser := {| Opt := Some 7; Values := [] |} |} in
  let es := [RegisterPass Examples.adce; PrintOptionInfo 7 80] in
  let stopped :=
    {| registry := [Examples.dce; Examples.adce; Examples.dce_again];
       parser := {| Opt := Some 7;
                    Values := [entry_of "adce" Examples.adce;
                               entry_of "dce" Examples.dce] |} |} in
  run Examples.base w
      (RegisterPass Examples.dce :: es
         ++ RegisterPass Examples.dce_again :: [RegisterPass Examples.mem2reg])
  = Aborted ("Two passes with the same argument (-dce) attempted to be registered!"
               ++ String "010"%char EmptyString)%string
            stopped.
Proof.
  intros w es stopped.
  assert (El1 : eligible Examples.base Examples.dce) by reflexivity.
  assert (El2 : eligible Examples.base Examples.dce_again) by reflexivity.
  destruct (duplicate_token_aborts Examples.base Examples.dce
              Examples.dce_again "dce"%string El1 El2 eq_refl eq_refl)
    as [Hlive _].
  assert (Hopt : Opt (parser w) <> None) by discriminate.
  exact (proj2 (proj2
    (Hlive w
       {| registry := [Examples.dce];
          parser := {| Opt := Some 7;
                       Values := [entry_of "dce" Examples.dce] |} |}
       {| registry := [Examples.dce; Examples.adce];
          parser := {| Opt := Some 7;
                       Values := [entry_of "adce" Examples.adce;
                                  entry_of "dce" Examples.dce] |} |}
       es [RegisterPass Examples.mem2reg] Hopt eq_refl eq_refl))).
Defined.

(** ** Help rendering *)

Lemma tokens_printOptionInfo (Values : list ValType) (Op : Option_t)
      (GlobalWidth : nat) :
  map fst (cl.printOptionInfo Values Op GlobalWidth) = tokens Values.
Proof. unfold cl.printOptionInfo, tokens. now rewrite map_map. Qed.

Lemma printOptionInfo_Values (this : PassNameParser) (Op : Option_t)
      (GlobalWidth : nat) :
  Values (fst (printOptionInfo this Op GlobalWidth))
  = std_sort ValLessThan (Values this).
Proof. reflexivity. Qed.

Lemma printOptionInfo_printed (this : PassNameParser) (Op : Option_t)
      (GlobalWidth : nat) :
  snd (printOptionInfo this Op GlobalWidth)
  = cl.printOptionInfo (std_sort ValLessThan (Values this)) Op GlobalWidth.
Proof. reflexivity. Qed.

Lemma std_sort_ascending (l : list ValType) :
  ascending (tokens (std_sort ValLessThan l)).
Proof.
  apply ordered_tokens_ascending, std_sort_sorted. exact ValLessThan_asym.
Qed.

(** C6. Help rendering presents the registered entries in ascending order of
    their names, compared as [std::string]s: what is printed is a
    rearrangement of the table's lines in which the names ascend.  Registered
    as mem2reg, dce, adce, the entries are presented as adce, dce, mem2reg. *)
Theorem printOptionInfo_presents_sorted
    (this : PassNameParser) (Op : Option_t) (GlobalWidth : nat) :
  ascending (map fst (snd (printOptionInfo this Op GlobalWidth)))
  /\ Permutation (snd (printOptionInfo this Op GlobalWidth))
                 (cl.printOptionInfo (Values this) Op GlobalWidth)
  /\ map fst (snd (printOptionInfo Examples.three Op GlobalWidth))
     = ["adce"; "dce"; "mem2reg"]%string.
Proof.
  rewrite printOptionInfo_printed, tokens_printOptionInfo.
  split; [apply std_sort_ascending|]. split; [|reflexivity].
  unfold cl.printOptionInfo. apply Permutation_map, std_sort_perm.
Qed.

(** C1, as stated, fails: the parser reached by registering mem2reg, dce and
    adce and attaching an option holds them in that order; after help is
    rendered once it holds adce, dce, mem2reg. *)
Lemma printOptionInfo_changes_registration_order :
  run Examples.base World_new
      [RegisterPass Examples.mem2reg; RegisterPass Examples.dce;
       RegisterPass Examples.adce; Initialize 7]
  = Returned {| registry := [Examples.mem2reg; Examples.dce; Examples.adce];
                parser := Examples.three |}
  /\ tokens (Values Examples.three) = ["mem2reg"; "dce"; "adce"]%string
  /\ tokens (Values (fst (printOptionInfo Examples.three 7 80)))
     = ["adce"; "dce"; "mem2reg"]%string
  /\ Values (fst (printOptionInfo Examples.three 7 80))
     <> Values Examples.three.
Proof.
  split; [reflexivity|]. split; [reflexivity|]. split; [reflexivity|].
  intros H. apply (f_equal tokens) in H. discriminate H.
Qed.

(** ** The model of [std::sort] is immaterial for distinct names *)

Lemma NoDup_tokens_inj (l : list ValType) (x y : ValType) :
  NoDup (tokens l) -> In x l -> In y l -> fst x = fst y -> x = y.
Proof.
  unfold tokens. induction l as [|a l IH]; simpl; intros Hnd Hx Hy E;
    [contradiction|].
  inversion Hnd as [|? ? Hn Hnd']; subst.
  destruct Hx as [->|Hx], Hy as [->|Hy]; auto; exfalso; apply Hn.
  - rewrite E. now apply in_map.
  - rewrite <- E. now apply in_map.
Qed.

Lemma ascending_head_least (x : ValType) (r : list ValType) (y : ValType) :
  ascending (tokens (x :: r)) -> In y r -> String.leb (fst x) (fst y) = true.
Proof.
  unfold ascending, tokens. simpl. intros H Hy.
  apply StronglySorted_inv in H. destruct H as [_ H].
  rewrite Forall_forall in H. apply H. now apply in_map.
Qed.

Lemma ascending_perm_eq : forall l1 l2 : list ValType,
  Permutation l1 l2 -> NoDup (tokens l1) ->
  ascending (tokens l1) -> ascending (tokens l2) -> l1 = l2.
Proof.
  induction l1 as [|x r1 IH]; intros l2 Hp Hnd H1 H2.
  - apply Permutation_nil in Hp. now subst.
  - destruct l2 as [|y r2].
    { symmetry in Hp. apply Permutation_nil in Hp. discriminate. }
    assert (Hy : In y (x :: r1))
      by (eapply Permutation_in; [symmetry; exact Hp | now left]).
    assert (Hx : In x (y :: r2))
      by (eapply Permutation_in; [exact Hp | now left]).
    assert (E : x = y).
    { destruct Hy as [->|Hy']; [reflexivity|].
      destruct Hx as [->|Hx']; [reflexivity|].
      apply (NoDup_tokens_inj (x :: r1)); auto; [now left | now right|].
      apply String.leb_antisym.
      - exact (ascending_head_least x r1 y H1 Hy').
      - exact (ascending_head_least y r2 x H2 Hx'). }
    subst y. f_equal. apply IH.
    + eapply Permutation_cons_inv. exact Hp.
    + unfold tokens in *. simpl in Hnd. now inversion Hnd.
    + unfold ascending, tokens in *. simpl in H1.
      now apply StronglySorted_inv in H1.
    + unfold ascending, tokens in *. simpl in H2.
      now apply StronglySorted_inv in H2.
Qed.

(** Whatever [std::sort] does with equivalent elements: when the names are
    pairwise distinct (as they are in every reachable table), a permutation
    of the table in which no entry is less than an earlier one is the list
    that [std_sort] computes. *)
Lemma std_sort_unique (l sorted : list ValType) :
  NoDup (tokens l) -> Permutation sorted l ->
  Sorted (ordered ValLessThan) sorted ->
  sorted = std_sort ValLessThan l.
Proof.
  intros Hnd Hp Hs. apply ascending_perm_eq.
  - rewrite Hp. symmetry. apply std_sort_perm.
  - eapply Permutation_NoDup; [|exact Hnd].
    apply Permutation_map. now symmetry.
  - now apply ordered_tokens_ascending.
  - apply std_sort_ascending.
Qed.

(** C1, as the code has it.  Help rendering sorts the table itself: after
    the call the parser holds the same entries, rearranged in ascending order
    of their names, and that is the order printed; the attached option is
    untouched.  When the names of the table are pairwise distinct (as they
    are in every reachable table), rendering a second time prints the same
    lines and leaves the parser as the first rendering left it; [std::sort]
    promises nothing of the kind about entries with equal names. *)
Theorem printOptionInfo_sorts_in_place
    (this : PassNameParser) (Op : Option_t) (GlobalWidth : nat) :
  let first := printOptionInfo this Op GlobalWidth in
  let second := printOptionInfo (fst first) Op GlobalWidth in
  Opt (fst first) = Opt this
  /\ Permutation (Values (fst first)) (Values this)
  /\ ascending (tokens (Values (fst first)))
  /\ snd first = cl.printOptionInfo (Values (fst first)) Op GlobalWidth
  /\ (NoDup (tokens (Values this)) ->
      snd second = snd first /\ fst second = fst first).
Proof.
  intros first second.
  assert (Hp : Permutation (Values (fst first)) (Values this))
    by (unfold first; rewrite printOptionInfo_Values; apply std_sort_perm).
  split; [reflexivity|].
  split; [exact Hp|].
  split; [unfold first; rewrite printOptionInfo_Values;
          apply std_sort_ascending|].
  split; [reflexivity|].
  intros Hnd.
  assert (Hid : Values (fst first)
                = std_sort ValLessThan (Values (fst first))).
  { apply std_sort_unique.
    - eapply Permutation_NoDup; [|exact Hnd].
      apply Permutation_map. now symmetry.
    - apply Permutation_refl.
    - unfold first. rewrite printOptionInfo_Values.
      apply std_sort_sorted. exact ValLessThan_asym. }
  split.
  - unfold second. rewrite printOptionInfo_printed, <- Hid. reflexivity.
  - unfold second.
    change (fst (printOptionInfo (fst first) Op GlobalWidth))
      with {| Opt := Opt (fst first);
              Values := std_sort ValLessThan (Values (fst first)) |}.
    rewrite <- Hid. now destruct (fst first).
Qed.

Lemma printOptionInfo_sorts_in_place_witness :
  let first := printOptionInfo Examples.three 7 80 in
  let second := printOptionInfo (fst first) 7 80 in
  NoDup (tokens (Values Examples.three))
  /\ snd second = snd first /\ fst second = fst first.
Proof.
  intros first second.
  assert (Hnd : NoDup (tokens (Values Examples.three)))
    by (repeat constructor; simpl; intuition discriminate).
  split; [exact Hnd|].
  exact (proj2 (proj2 (proj2 (proj2
           (printOptionInfo_sorts_in_place Examples.three 7 80)))) Hnd).
Defined.

(** ** Where the refinement is evaluated *)

Lemma base_accepts_inv (P : PassInfo) :
  base_rejects P = false ->
  exists c rest ctor,
    getPassArgument P = Some (String c rest) /\ getNormalCtor P = Some ctor.
Proof.
  unfold base_rejects.
  destruct (getPassArgument P) as [[|c s]|]; try discriminate.
  destruct (getNormalCtor P) as [ctor|]; try discriminate.
  intros _. now exists c, s, ctor.
Qed.

Section CallsFacts.

Variable impl : Refinement.

(** [ignorablePass] calls the refinement once, on [P], when the three base
    tests have failed, and not at all otherwise. *)
Lemma ignorablePass_calls (P : PassInfo) :
  calls impl (ignorablePass_eval P) = if base_rejects P then [] else [P].
Proof.
  unfold ignorablePass_eval, base_rejects.
  destruct (getPassArgument P) as [[|c s]|]; try reflexivity.
  destruct (getNormalCtor P); simpl; [|reflexivity].
  now destruct (impl P).
Qed.

Lemma passRegistered_calls_guarded (P Q : PassInfo) :
  In Q (passRegistered_calls impl P) -> base_rejects Q = false.
Proof.
  unfold passRegistered_calls. rewrite ignorablePass_calls.
  destruct (base_rejects P) eqn:E; simpl; [tauto|].
  intros [<-|[]]. exact E.
Qed.

Lemma enumeratePasses_calls_guarded (known : list PassInfo) (Q : PassInfo) :
  forall this,
    In Q (enumeratePasses_calls impl known this) -> base_rejects Q = false.
Proof.
  induction known as [|P rest IH]; simpl; intros this H; [contradiction|].
  apply in_app_or in H. destruct H as [H|H].
  - eapply passRegistered_calls_guarded. exact H.
  - destruct (passEnumerate impl this P); simpl in H; try contradiction.
    eapply IH. exact H.
Qed.

Lemma run_calls_guarded (es : list Event) (Q : PassInfo) : forall w,
  In Q (run_calls impl w es) -> base_rejects Q = false.
Proof.
  induction es as [|e rest IH]; simpl; intros w H; [contradiction|].
  apply in_app_or in H. destruct H as [H|H].
  - destruct e as [P|Op|Op W]; simpl in H.
    + eapply passRegistered_calls_guarded. exact H.
    + eapply enumeratePasses_calls_guarded. exact H.
    + contradiction.
  - destruct (step impl w e); simpl in H; try contradiction.
    eapply IH. exact H.
Qed.

(** A refinement that is defined wherever the base tests fail makes every
    call defined. *)
Hypothesis impl_defined :
  forall P, base_rejects P = false -> impl P <> None.

Lemma ignorablePass_defined (P : PassInfo) : ignorablePass impl P <> None.
Proof.
  rewrite ignorablePass_unfold.
  destruct (base_rejects P) eqn:E; [discriminate|]. now apply impl_defined.
Qed.

Lemma passRegistered_defined (this : PassNameParser) (P : PassInfo) :
  passRegistered impl this P <> Undefined.
Proof.
  unfold passRegistered.
  destruct (ignorablePass impl P) as [[|]|] eqn:E; simpl; try discriminate.
  - destruct (ptr_to_bool (Opt this)); simpl; [|discriminate].
    destruct (eligible_inv impl P E) as (c & rest & ctor & Ha & _).
    rewrite Ha. now destruct (negb _).
  - now apply ignorablePass_defined in E.
Qed.

Lemma enumeratePasses_defined (known : list PassInfo) : forall this,
  enumeratePasses impl known this <> Undefined.
Proof.
  induction known as [|P rest IH]; simpl; intros this; [discriminate|].
  unfold passEnumerate.
  destruct (passRegistered impl this P) eqn:E; auto; try discriminate.
  now apply passRegistered_defined in E.
Qed.

Lemma run_defined (es : list Event) : forall w, run impl w es <> Undefined.
Proof.
  induction es as [|e rest IH]; simpl; intros w; [discriminate|].
  destruct (step impl w e) eqn:E; auto; try discriminate.
  destruct e as [P|Op|Op W]; simpl in E; try discriminate.
  - destruct (passRegistered impl (parser w) P) eqn:E'; try discriminate.
    now apply passRegistered_defined in E'.
  - unfold initialize in E.
    destruct (enumeratePasses impl _ _) eqn:E'; try discriminate.
    now apply enumeratePasses_defined in E'.
Qed.

End CallsFacts.

(** The allow-list filter is defined on every descriptor whose argument is
    not null, hence wherever the parser consults it. *)
Lemma PassArgFilter_defined (Args : string) (P : PassInfo) :
  base_rejects P = false ->
  FilteredPassNameParser_ignorablePassImpl (PassArgFilter Args) P <> None.
Proof.
  intros H. destruct (base_accepts_inv P H) as (c & rest & ctor & Ha & _).
  unfold FilteredPassNameParser_ignorablePassImpl, PassArgFilter.
  rewrite Ha. discriminate.
Qed.

(** No run of a parser filtered by an allow-list, nor of the base parser,
    meets undefined behaviour. *)
Lemma allow_list_run_defined (Args : string) (w : World) (es : list Event) :
  run (FilteredPassNameParser_ignorablePassImpl (PassArgFilter Args)) w es
  <> Undefined.
Proof. apply run_defined. apply PassArgFilter_defined. Qed.

Lemma base_run_defined (w : World) (es : list Event) :
  run PassNameParser_ignorablePassImpl w es <> Undefined.
Proof. apply run_defined. discriminate. Qed.

(** C9. Every descriptor handed to the refinement [ignorablePassImpl] in the
    course of a run has a non-null, non-empty argument and a non-null
    constructor: the three base tests of [ignorablePass] come first and end
    the evaluation when one of them holds.  In particular the [strstr] of the
    allow-list filter receives a needle that is neither null nor empty, and
    the filter is defined there. *)
Theorem refinement_evaluated_only_when_guarded
    (impl : Refinement) (w : World) (es : list Event) (Q : PassInfo) :
  In Q (run_calls impl w es) ->
  (exists c rest ctor,
      getPassArgument Q = Some (String c rest) /\ getNormalCtor Q = Some ctor)
  /\ (forall Args, exists needle,
         getPassArgument Q = Some needle /\ needle <> EmptyString
         /\ PassArgFilter Args Q = Some (ptr_to_bool (strstr Args needle))).
Proof.
  intros H. apply run_calls_guarded in H.
  destruct (base_accepts_inv Q H) as (c & rest & ctor & Ha & Hc).
  split; [now exists c, rest, ctor|].
  intros Args. exists (String c rest).
  split; [exact Ha|]. split; [discriminate|].
  unfold PassArgFilter. now rewrite Ha.
Qed.

Lemma refinement_evaluated_only_when_guarded_witness :
  let es := [RegisterPass Examples.unnamed; RegisterPass Examples.dce_group;
             RegisterPass Examples.dse; Initialize 7] in
  run_calls Examples.allowed_only World_new es = [Examples.dse; Examples.dse]
  /\ (exists c rest ctor,
         getPassArgument Examples.dse = Some (String c rest)
         /\ getNormalCtor Examples.dse = Some ctor).
Proof.
  intros es. split; [reflexivity|].
  refine (proj1 (refinement_evaluated_only_when_guarded
                   Examples.allowed_only World_new es Examples.dse _)).
  left. reflexivity.
Defined.

(** ** The allow-list filter *)

Lemma prefix_append (s t : string) : String.prefix s (s ++ t) = true.
Proof.
  induction s as [|c s IH]; simpl.
  - now destruct t.
  - destruct (ascii_dec c c); [exact IH | contradiction].
Qed.

Lemma strstr_prefix (haystack needle : string) :
  String.prefix needle haystack = true -> strstr haystack needle = Some 0.
Proof. intros H. destruct haystack; cbn [strstr]; now rewrite H. Qed.

(** [strstr] finds every occurrence. *)
Lemma strstr_occurrence (before needle after : string) :
  strstr (before ++ needle ++ after) needle <> None.
Proof.
  induction before as [|c before IH].
  - simpl append. rewrite strstr_prefix; [discriminate|].
    apply prefix_append.
  - cbn [append strstr]. destruct (String.prefix needle _); [discriminate|].
    destruct (strstr _ needle); [discriminate | contradiction].
Qed.

Lemma append_assoc (a b c : string) :
  ((a ++ b) ++ c = a ++ (b ++ c))%string.
Proof. induction a as [|x a IH]; simpl; [reflexivity | now rewrite IH]. Qed.

Lemma append_nil_r (a : string) : (a ++ "" = a)%string.
Proof. induction a as [|x a IH]; simpl; [reflexivity | now rewrite IH]. Qed.

(** An entry of the allow-list occurs in it. *)
Lemma split_ws_occurs (s : string) : forall (cur e : string),
  In e (split_ws cur s) ->
  exists before after, (cur ++ s = before ++ e ++ after)%string.
Proof.
  induction s as [|c s IH]; simpl; intros cur e H.
  - destruct cur as [|x cur]; [contradiction|].
    destruct H as [<-|[]]. exists EmptyString, EmptyString.
    simpl. now rewrite !append_nil_r.
  - destruct (isspace c).
    + destruct cur as [|x cur].
      * apply IH in H. destruct H as (b & a & E). simpl in E.
        exists (String c b), a. simpl. now rewrite E.
      * destruct H as [<-|H].
        { exists EmptyString, (String c s). reflexivity. }
        apply IH in H. destruct H as (b & a & E). simpl in E.
        exists (String x cur ++ String c b)%string, a.
        rewrite append_assoc. simpl. now rewrite E.
    + apply IH in H. destruct H as (b & a & E).
      exists b, a. rewrite <- E, append_assoc. reflexivity.
Qed.

(** The part of the allow-list rule that the code does keep: a token that is
    an entry of the list is admitted. *)
Lemma exact_entry_admitted (Args : string) (P : PassInfo) :
  admit_exact Args P = Some true -> PassArgFilter Args P = Some true.
Proof.
  unfold admit_exact, PassArgFilter, allow_list_entries.
  destruct (getPassArgument P) as [token|]; [|discriminate].
  intros [= H]. apply existsb_exists in H. destruct H as (e & Hin & He).
  apply String.eqb_eq in He. subst e.
  apply split_ws_occurs in Hin. destruct Hin as (b & a & E).
  simpl in E. rewrite E.
  pose proof (strstr_occurrence b token a) as Hs.
  destruct (strstr _ token); [reflexivity | contradiction].
Qed.

(** The usage note of the header, on the three passes of the design
    document's example: dse and anders_aa pass the filter, inline does not. *)
Example allow_list_usage_note :
  PassArgFilter Examples.AllowedPassArgs Examples.dse = Some true
  /\ PassArgFilter Examples.AllowedPassArgs Examples.anders_aa = Some true
  /\ PassArgFilter Examples.AllowedPassArgs Examples.inline = Some false
  /\ run Examples.allowed_only World_new
         [RegisterPass Examples.dse; RegisterPass Examples.inline;
          Initialize 7; RegisterPass Examples.anders_aa]
     = Returned {| registry := [Examples.dse; Examples.inline;
                                Examples.anders_aa];
                   parser := {| Opt := Some 7;
                                Values := [entry_of "dse" Examples.dse;
                                           entry_of "anders_aa"
                                             Examples.anders_aa] |} |}.
Proof. repeat split; reflexivity. Qed.

(** C2, the defect.  [PassArgFilter] asks [strstr] whether the argument
    occurs anywhere in [Args].  With the list "optimize" the pass "opt" is
    admitted although it is no entry of the list; with the array of the
    header's usage note, "-anders_aa -dse", which is documented to make only
    anders_aa and dse available, the pass "aa" is admitted as well and
    becomes a selectable value. *)
Lemma PassArgFilter_admits_substring :
  PassArgFilter "optimize" Examples.opt = Some true
  /\ admit_exact "optimize" Examples.opt = Some false
  /\ eligible (FilteredPassNameParser_ignorablePassImpl
                 (PassArgFilter "optimize")) Examples.opt
  /\ PassArgFilter Examples.AllowedPassArgs Examples.aa = Some true
  /\ allow_list_entries Examples.AllowedPassArgs
     = ["-anders_aa"; "-dse"]%string
  /\ run Examples.allowed_only World_new
         [Initialize 7; RegisterPass Examples.inline; RegisterPass Examples.aa]
     = Returned {| registry := [Examples.inline; Examples.aa];
                   parser := {| Opt := Some 7;
                                Values := [entry_of "aa" Examples.aa] |} |}.
Proof. repeat split; reflexivity. Qed.

(** * Further properties of the code *)

(** ** The comparator *)

Lemma string_ltb_irrefl (s : string) : String.ltb s s = false.
Proof. unfold String.ltb. now rewrite StringOrder.compare_refl. Qed.

(** X1. [ValLessThan] is a strict weak ordering on entries, as [std::sort]
    requires of its comparator: it is irreflexive and transitive, and two
    entries neither of which is less than the other have the same name. *)
Theorem ValLessThan_strict_weak_order :
  (forall x, ValLessThan x x = false)
  /\ (forall x y z,
         ValLessThan x y = true -> ValLessThan y z = true ->
         ValLessThan x z = true)
  /\ (forall x y,
         ValLessThan x y = false -> ValLessThan y x = false -> fst x = fst y).
Proof.
  unfold ValLessThan. split; [|split].
  - intros x. apply string_ltb_irrefl.
  - intros x y z. apply StringOrder.ltb_trans.
  - intros x y H1 H2. apply String.leb_antisym.
    + now apply StringOrder.not_ltb_leb.
    + now apply StringOrder.not_ltb_leb.
Qed.

Lemma ValLessThan_strict_weak_order_witness :
  ValLessThan (entry_of "adce" Examples.adce) (entry_of "dce" Examples.dce)
  = true
  /\ ValLessThan (entry_of "dce" Examples.dce)
                 (entry_of "mem2reg" Examples.mem2reg) = true
  /\ ValLessThan (entry_of "adce" Examples.adce)
                 (entry_of "mem2reg" Examples.mem2reg) = true.
Proof.
  split; [reflexivity|]. split; [reflexivity|].
  exact (proj1 (proj2 ValLessThan_strict_weak_order)
           (entry_of "adce" Examples.adce) (entry_of "dce" Examples.dce)
           (entry_of "mem2reg" Examples.mem2reg) eq_refl eq_refl).
Defined.

(** ** What [strstr] finds *)

Lemma prefix_occurs : forall needle haystack : string,
  String.prefix needle haystack = true ->
  exists after, haystack = (needle ++ after)%string.
Proof.
  induction needle as [|c needle IH]; intros haystack H.
  - now exists haystack.
  - destruct haystack as [|d haystack]; simpl in H; [discriminate|].
    destruct (ascii_dec c d) as [->|]; [|discriminate].
    destruct (IH _ H) as (after & ->). now exists after.
Qed.

Lemma strstr_found : forall (haystack needle : string) (k : nat),
  strstr haystack needle = Some k ->
  exists before after,
    haystack = (before ++ needle ++ after)%string
    /\ String.length before = k.
Proof.
  induction haystack as [|c haystack IH]; intros needle k H; cbn [strstr] in H.
  - destruct (String.prefix needle EmptyString) eqn:E; [|discriminate].
    injection H as <-. destruct (prefix_occurs _ _ E) as (after & Ha).
    now exists EmptyString, after.
  - destruct (String.prefix needle (String c haystack)) eqn:E.
    + injection H as <-. destruct (prefix_occurs _ _ E) as (after & Ha).
      now exists EmptyString, after.
    + destruct (strstr haystack needle) as [j|] eqn:Ej; [|discriminate].
      injection H as <-. destruct (IH _ _ Ej) as (before & after & -> & <-).
      now exists (String c before), after.
Qed.

(** X2. [PassArgFilter<Args>] accepts a pass with a non-null argument
    exactly when the argument occurs somewhere in [Args] as a run of
    consecutive characters; an empty argument is therefore accepted by every
    [Args]. *)
Theorem PassArgFilter_iff_occurs
    (Args : string) (P : PassInfo) (needle : string) :
  getPassArgument P = Some needle ->
  (PassArgFilter Args P = Some true <-> occurs_in needle Args)
  /\ (needle = EmptyString -> PassArgFilter Args P = Some true).
Proof.
  intros Ha.
  assert (Hiff : PassArgFilter Args P = Some true <-> occurs_in needle Args).
  { unfold PassArgFilter, occurs_in. rewrite Ha. split.
    - destruct (strstr Args needle) as [k|] eqn:E; [|discriminate].
      intros _. destruct (strstr_found _ _ _ E) as (b & a & H & _).
      now exists b, a.
    - intros (b & a & ->).
      pose proof (strstr_occurrence b needle a) as H.
      destruct (strstr _ needle); [reflexivity | contradiction]. }
  split; [exact Hiff|].
  intros ->. apply Hiff. exists EmptyString, Args. reflexivity.
Qed.

Lemma PassArgFilter_iff_occurs_witness :
  getPassArgument Examples.aa = Some "aa"%string
  /\ occurs_in "aa" Examples.AllowedPassArgs.
Proof.
  split; [reflexivity|].
  apply (proj1 (PassArgFilter_iff_occurs Examples.AllowedPassArgs Examples.aa
                  "aa"%string eq_refl)).
  reflexivity.
Defined.

(** ** The only abnormal exit *)

Section Exits.

Variable impl : Refinement.

(** [passRegistered] aborts only on an eligible pass, with an option
    attached, whose argument is already a name of the table; it leaves the
    parser as it was. *)
Lemma passRegistered_Aborted (this this' : PassNameParser) (P : PassInfo)
      (msg : string) :
  passRegistered impl this P = Aborted msg this' ->
  this' = this
  /\ exists arg,
       getPassArgument P = Some arg /\ msg = duplicate_message arg
       /\ In arg (tokens (Values this)) /\ eligible impl P
       /\ Opt this <> None.
Proof.
  unfold passRegistered.
  destruct (ignorablePass impl P) as [[|]|] eqn:Ei; simpl; try discriminate.
  destruct (Opt this) as [Op|] eqn:Eo; simpl; try discriminate.
  destruct (getPassArgument P) as [arg|] eqn:Ea; try discriminate.
  destruct (negb _) eqn:Ef; try discriminate.
  intros [= <- <-]. split; [reflexivity|]. exists arg.
  repeat split; auto; try discriminate.
  now apply clFacts.findOption_test.
Qed.

(** What a returning or aborting call of [passRegistered] leaves. *)
Lemma passRegistered_keeps (this : PassNameParser) (P : PassInfo) :
  match passRegistered impl this P with
  | Returned t | Aborted _ t =>
      incl (Values this) (Values t) /\ Opt t = Opt this
  | Undefined => True
  end.
Proof.
  destruct (passRegistered impl this P) as [t|msg t|] eqn:E; [| |exact I].
  - apply passRegistered_Returned in E.
    destruct E as [->|(arg & Op & _ & _ & _ & _ & ->)]; simpl.
    + split; [apply incl_refl | reflexivity].
    + split; [apply incl_appl, incl_refl | reflexivity].
  - apply passRegistered_Aborted in E. destruct E as [-> _].
    split; [apply incl_refl | reflexivity].
Qed.

Lemma enumeratePasses_keeps (known : list PassInfo) : forall this,
  match enumeratePasses impl known this with
  | Returned t | Aborted _ t =>
      incl (Values this) (Values t) /\ Opt t = Opt this
  | Undefined => True
  end.
Proof.
  induction known as [|P rest IH]; intros this; simpl.
  - split; [apply incl_refl | reflexivity].
  - unfold passEnumerate.
    pose proof (passRegistered_keeps this P) as HP.
    destruct (passRegistered impl this P) as [t|msg t|]; auto.
    pose proof (IH t) as HR. destruct HP as [Hi Ho].
    destruct (enumeratePasses impl rest t) as [t'|msg' t'|]; auto;
      destruct HR as [Hi' Ho']; (split; [eapply incl_tran; eauto | congruence]).
Qed.

(** An aborting replay names an eligible pass of the replayed list whose
    argument is in the table it leaves. *)
Lemma enumeratePasses_Aborted (known : list PassInfo) : forall this this' msg,
  enumeratePasses impl known this = Aborted msg this' ->
  exists arg P,
    msg = duplicate_message arg /\ In P known
    /\ getPassArgument P = Some arg /\ eligible impl P
    /\ In arg (tokens (Values this')) /\ Opt this' <> None.
Proof.
  induction known as [|P rest IH]; simpl; intros this this' msg H;
    [discriminate|].
  unfold passEnumerate in H.
  destruct (passRegistered impl this P) as [t|m t|] eqn:E; try discriminate.
  - destruct (IH _ _ _ H) as (arg & Q & H1 & H2 & H3).
    exists arg, Q. intuition.
  - injection H as <- <-. apply passRegistered_Aborted in E.
    destruct E as (-> & arg & Ha & Hm & Hin & El & Ho).
    exists arg, P. intuition.
Qed.

End Exits.

(** X3. The duplicate argument is the only way to [abort()]: when a run
    aborts, the message is the duplicate message for the argument of an
    eligible registered pass, an option is attached, and that argument is a
    name of the table at the time of the abort. *)
Theorem abort_only_on_duplicate
    (impl : Refinement) (es : list Event) (w w' : World) (msg : string) :
  run impl w es = Aborted msg w' ->
  exists arg P,
    msg = duplicate_message arg /\ In P (registry w')
    /\ getPassArgument P = Some arg /\ eligible impl P
    /\ In arg (tokens (Values (parser w'))) /\ Opt (parser w') <> None.
Proof.
  revert w. induction es as [|e rest IH]; simpl; intros w H; [discriminate|].
  destruct (step impl w e) as [w1|m w1|] eqn:E; try discriminate.
  - exact (IH _ H).
  - injection H as <- <-.
    destruct e as [P|Op|Op W]; simpl in E; try discriminate.
    + destruct (passRegistered impl (parser w) P) as [t|m' t|] eqn:E';
        try discriminate.
      injection E as <- <-. apply passRegistered_Aborted in E'.
      destruct E' as (-> & arg & Ha & Hm & Hin & El & Ho).
      exists arg, P. simpl. repeat split; auto.
      apply in_or_app. right. now left.
    + unfold initialize in E.
      destruct (enumeratePasses impl _ _) as [t|m' t|] eqn:E';
        try discriminate.
      injection E as <- <-. apply enumeratePasses_Aborted in E'.
      destruct E' as (arg & P & H1 & H2 & H3 & H4 & H5 & H6).
      exists arg, P. simpl. repeat split; auto.
Qed.

Lemma abort_only_on_duplicate_witness :
  exists arg P,
    duplicate_message "dce" = duplicate_message arg
    /\ In P [Examples.dce; Examples.dce_again]
    /\ getPassArgument P = Some arg.
Proof.
  destruct (abort_only_on_duplicate Examples.base
              [Initialize 7; RegisterPass Examples.dce;
               RegisterPass Examples.dce_again]
              World_new
              {| registry := [Examples.dce; Examples.dce_again];
                 parser := Examples.attached_dce |}
              (duplicate_message "dce") eq_refl)
    as (arg & P & H1 & H2 & H3 & _).
  exists arg, P. repeat split; assumption.
Defined.

(** ** What no operation loses *)

Lemma grows_refl (w : World) : grows w w.
Proof. repeat split; auto using incl_refl. Qed.

Lemma grows_trans (w1 w2 w3 : World) :
  grows w1 w2 -> grows w2 w3 -> grows w1 w3.
Proof.
  intros (A1 & B1 & C1) (A2 & B2 & C2).
  repeat split; eauto using incl_tran.
Qed.

Lemma step_grows (impl : Refinement) (w : World) (e : Event) :
  match step impl w e with
  | Returned w' | Aborted _ w' => grows w w'
  | Undefined => True
  end.
Proof.
  destruct e as [P|Op|Op W]; simpl.
  - pose proof (passRegistered_keeps impl (parser w) P) as H.
    destruct (passRegistered impl (parser w) P) as [t|m t|]; simpl; auto;
      destruct H as [Hi Ho]; (repeat split; simpl;
        [apply incl_appl, incl_refl | exact Hi | congruence]).
  - unfold initialize.
    pose proof (enumeratePasses_keeps impl (registry w)
                  {| Opt := Some Op; Values := Values (parser w) |}) as H.
    destruct (enumeratePasses impl _ _) as [t|m t|]; simpl; auto;
      destruct H as [Hi Ho]; simpl in *; (repeat split; simpl;
        [apply incl_refl | exact Hi | rewrite Ho; discriminate]).
  - repeat split; simpl; auto using incl_refl.
    intros v Hv. eapply Permutation_in; [|exact Hv].
    symmetry. apply std_sort_perm.
Qed.

(** X4. No operation removes or alters an entry, forgets a registered pass
    or detaches the option: whether a run returns or aborts, the table it
    leaves holds every entry of the table it started with. *)
Theorem nothing_is_lost (impl : Refinement) (es : list Event) (w : World) :
  match run impl w es with
  | Returned w' | Aborted _ w' => grows w w'
  | Undefined => True
  end.
Proof.
  revert w. induction es as [|e rest IH]; intros w; simpl.
  - apply grows_refl.
  - pose proof (step_grows impl w e) as Hs.
    destruct (step impl w e) as [w1|m w1|]; auto.
    pose proof (IH w1) as Hr.
    destruct (run impl w1 rest) as [w2|m w2|]; auto;
      eapply grows_trans; eauto.
Qed.

(** ** Attachment and the table *)

(** X5. Entries exist only once an option is attached: a parser reached from
    the initial state that has no option attached is still the freshly
    constructed parser, with an empty table, whatever was registered or
    rendered meanwhile. *)
Theorem unattached_table_empty
    (impl : Refinement) (es : list Event) (w : World) :
  run impl World_new es = Returned w ->
  Opt (parser w) = None ->
  parser w = PassNameParser_new.
Proof.
  intros Hrun Hopt.
  assert (H : Opt (parser w) = None -> Values (parser w) = []).
  { revert Hrun.
    apply (run_inv impl (fun p => Opt p = None -> Values p = [])).
    - intros this P arg Op _ _ _ Ho. simpl. congruence.
    - intros this Op _. simpl. discriminate.
    - intros this HI. simpl. intros Ho. now rewrite (HI Ho).
    - reflexivity. }
  destruct (parser w) as [o v]. simpl in *.
  unfold PassNameParser_new. now rewrite Hopt, (H Hopt).
Qed.

Lemma unattached_table_empty_witness :
  let es := [RegisterPass Examples.mem2reg; PrintOptionInfo 7 80;
             RegisterPass Examples.dce] in
  let w := {| registry := [Examples.mem2reg; Examples.dce];
              parser := PassNameParser_new |} in
  run Examples.base World_new es = Returned w
  /\ parser w = PassNameParser_new.
Proof.
  intros es w. split; [reflexivity|].
  exact (unattached_table_empty Examples.base es w eq_refl eq_refl).
Defined.

(** ** No null pointer is read *)

Lemma well_defined_iff {S : Type} (o : Outcome S) :
  o <> Undefined -> well_defined o = true.
Proof. destruct o; simpl; congruence. Qed.

(** X6. No run reads a null argument: [passRegistered] uses
    [getPassArgument()] (for [findOption], the message and
    [addLiteralOption]) only after [ignorablePass] found it non-null.  This
    holds for the base parser, for a filtered parser whose filter is defined
    on every pass that the base tests accept, and so for
    [PassArgFilter<Args>], although its [strstr] is undefined on a null
    argument. *)
Theorem no_null_argument_read :
  (forall w es, well_defined (run PassNameParser_ignorablePassImpl w es) = true)
  /\ (forall (filter : Filter),
         (forall P, base_rejects P = false -> filter P <> None) ->
         forall w es,
           well_defined
             (run (FilteredPassNameParser_ignorablePassImpl filter) w es)
           = true)
  /\ (forall Args w es,
         well_defined
           (run (FilteredPassNameParser_ignorablePassImpl (PassArgFilter Args))
                w es) = true).
Proof.
  split; [|split].
  - intros w es. apply well_defined_iff, base_run_defined.
  - intros filter H w es. apply well_defined_iff, run_defined.
    intros P HP. unfold FilteredPassNameParser_ignorablePassImpl.
    specialize (H P HP). now destruct (filter P).
  - intros Args w es. apply well_defined_iff, allow_list_run_defined.
Qed.

Lemma no_null_argument_read_witness :
  well_defined
    (run (FilteredPassNameParser_ignorablePassImpl (fun _ => Some true))
         World_new
         [RegisterPass Examples.unnamed; Initialize 7;
          RegisterPass Examples.dce]) = true.
Proof.
  refine (proj1 (proj2 no_null_argument_read) (fun _ => Some true) _
            World_new _).
  intros P _. discriminate.
Defined.

(** ** The entries of a reachable table *)

Section Reachable.

Variable impl : Refinement.

Lemma enumeratePasses_selectable (known : list PassInfo) : forall this this',
  enumeratePasses impl known this = Returned this' ->
  incl (selectable (Values this')) (selectable (Values this) ++ known).
Proof.
  induction known as [|P rest IH]; simpl; intros this this' H.
  - injection H as <-. rewrite app_nil_r. apply incl_refl.
  - unfold passEnumerate in H.
    destruct (passRegistered impl this P) as [t| |] eqn:E; try discriminate.
    apply IH in H. intros Q HQ. apply H in HQ.
    apply in_app_or in HQ. destruct HQ as [HQ|HQ].
    + apply passRegistered_Returned in E.
      destruct E as [->|(arg & Op & _ & _ & _ & _ & ->)].
      * apply in_or_app. now left.
      * simpl in HQ. unfold selectable in HQ. rewrite map_app in HQ.
        apply in_app_or in HQ. destruct HQ as [HQ|[<-|[]]].
        -- apply in_or_app. now left.
        -- apply in_or_app. right. now left.
    + apply in_or_app. right. now right.
Qed.

(** Every selectable pass has been registered. *)
Lemma selectable_registered (es : list Event) : forall w w',
  incl (selectable (Values (parser w))) (registry w) ->
  run impl w es = Returned w' ->
  incl (selectable (Values (parser w'))) (registry w').
Proof.
  induction es as [|e rest IH]; simpl; intros w w' HI H.
  - now injection H as <-.
  - destruct (step impl w e) as [w1| |] eqn:E; try discriminate.
    apply (IH w1); [|exact H]. clear H IH.
    destruct e as [P|Op|Op W]; simpl in E.
    + destruct (passRegistered impl (parser w) P) as [t| |] eqn:E';
        try discriminate.
      injection E as <-. simpl.
      assert (Hs : incl (selectable (Values t))
                        (selectable (Values (parser w)) ++ [P])).
      { apply (enumeratePasses_selectable [P] (parser w) t).
        simpl. unfold passEnumerate. now rewrite E'. }
      intros Q HQ. apply Hs in HQ. apply in_app_or in HQ.
      apply in_or_app. destruct HQ; auto.
    + unfold initialize in E.
      destruct (enumeratePasses impl _ _) as [t| |] eqn:E'; try discriminate.
      injection E as <-. simpl.
      apply enumeratePasses_selectable in E'. simpl in E'.
      intros Q HQ. apply E' in HQ. apply in_app_or in HQ.
      destruct HQ; auto.
    + injection E as <-. simpl. intros Q HQ. apply HI.
      unfold selectable in *. eapply Permutation_in; [|exact HQ].
      apply Permutation_map, std_sort_perm.
Qed.

End Reachable.

(** X7. In every table reached from the initial state, an entry is what
    [passRegistered] made of a registered pass: its name is the argument of
    its pass and is not empty, its help string is the name of the pass, the
    pass has a constructor and is accepted by the refinement, and it is one
    of the registered passes. *)
Theorem reachable_entries_well_formed
    (impl : Refinement) (es : list Event) (w : World)
    (name : string) (P : PassInfo) (help : cstr) :
  run impl World_new es = Returned w ->
  In (name, (P, help)) (Values (parser w)) ->
  getPassArgument P = Some name /\ name <> EmptyString
  /\ help = getPassName P
  /\ getNormalCtor P <> None /\ impl P = Some false
  /\ In P (registry w).
Proof.
  intros Hrun Hin.
  pose proof (entries_wf impl es w Hrun) as Hwf.
  rewrite Forall_forall in Hwf. destruct (Hwf _ Hin) as (El & Ha & Hh).
  simpl in *.
  destruct (eligible_inv impl P El) as (c & rest & ctor & Ha' & Hc & Hi).
  split; [exact Ha|]. split; [congruence|]. split; [exact Hh|].
  split; [congruence|]. split; [exact Hi|].
  apply (selectable_registered impl es World_new w); auto.
  - intros Q [].
  - unfold selectable.
    change P with ((fun v : ValType => fst (snd v)) (name, (P, help))).
    now apply in_map.
Qed.

Lemma reachable_entries_well_formed_witness :
  getPassArgument Examples.dce = Some "dce"%string
  /\ In Examples.dce [Examples.mem2reg; Examples.dce].
Proof.
  destruct (reachable_entries_well_formed Examples.base
              [RegisterPass Examples.mem2reg; Initialize 7;
               RegisterPass Examples.dce]
              {| registry := [Examples.mem2reg; Examples.dce];
                 parser := {| Opt := Some 7;
                              Values := [entry_of "mem2reg" Examples.mem2reg;
                                         entry_of "dce" Examples.dce] |} |}
              "dce"%string Examples.dce (getPassName Examples.dce)
              eq_refl (or_intror (or_introl eq_refl)))
    as (H1 & _ & _ & _ & _ & H6).
  split; [exact H1 | exact H6].
Defined.

(** ** Names and the entries they select *)

Lemma selected_Some_inv (Values : list ValType) : forall name v,
  selected Values name = Some v -> In v Values /\ fst v = name.
Proof.
  unfold selected.
  induction Values as [|a rest IH]; simpl; intros name v H; [discriminate|].
  destruct (String.eqb_spec (fst a) name) as [E|NE]; simpl in H.
  - injection H as <-. auto.
  - destruct (IH _ _ H). auto.
Qed.

Lemma selected_absent (Values : list ValType) (name : string) :
  ~ In name (tokens Values) -> selected Values name = None.
Proof.
  intros H. apply clFacts.findOption_absent in H.
  unfold selected. rewrite H. apply nth_error_None.
  unfold cl.getNumOptions. lia.
Qed.

Lemma selected_In (Values : list ValType) : forall v,
  NoDup (tokens Values) -> In v Values -> selected Values (fst v) = Some v.
Proof.
  unfold selected, tokens.
  induction Values as [|a rest IH]; simpl; intros v Hnd Hin; [contradiction|].
  inversion Hnd as [|? ? Hn Hnd']; subst.
  destruct (String.eqb_spec (fst a) (fst v)) as [E|NE]; simpl.
  - destruct Hin as [->|Hin]; [reflexivity|].
    exfalso. apply Hn. rewrite E. now apply in_map.
  - destruct Hin as [->|Hin]; [contradiction|]. now apply IH.
Qed.

(** Distinct names stay distinct along a run. *)
Lemma names_stay_distinct (impl : Refinement) (es : list Event) (w w' : World) :
  NoDup (tokens (Values (parser w))) ->
  run impl w es = Returned w' ->
  NoDup (tokens (Values (parser w'))).
Proof.
  apply (run_inv impl (fun p => NoDup (tokens (Values p)))).
  - intros this P arg Op HI _ _ _ Hn. simpl.
    unfold tokens. rewrite map_app. simpl. now apply NoDup_snoc.
  - intros this Op HI. exact HI.
  - intros this HI. simpl.
    eapply Permutation_NoDup; [|exact HI].
    apply Permutation_map. symmetry. apply std_sort_perm.
Qed.

(** X8. In every table reached from the initial state a name selects the
    one entry registered under it: an entry is in the table exactly when
    [findOption] of its name points at it, and every selectable pass is
    found under its own argument. *)
Theorem name_selects_its_entry
    (impl : Refinement) (es : list Event) (w : World) :
  run impl World_new es = Returned w ->
  (forall v, In v (Values (parser w)) <->
             selected (Values (parser w)) (fst v) = Some v)
  /\ (forall P, In P (selectable (Values (parser w))) ->
                selected (Values (parser w)) (arg_of P) = Some (pass_entry P)).
Proof.
  intros Hrun.
  assert (Hnd : NoDup (tokens (Values (parser w))))
    by (apply (names_stay_distinct impl es World_new w); [constructor | auto]).
  split.
  - intros v. split.
    + now apply selected_In.
    + intros H. now apply selected_Some_inv in H.
  - intros P HP. unfold selectable in HP. apply in_map_iff in HP.
    destruct HP as ([name [Q help]] & <- & Hin). simpl.
    pose proof (entries_wf impl es w Hrun) as Hwf.
    rewrite Forall_forall in Hwf. destruct (Hwf _ Hin) as (_ & Ha & Hh).
    simpl in Ha, Hh.
    assert (E : (name, (Q, help)) = pass_entry Q).
    { unfold pass_entry, entry_of, arg_of. now rewrite Ha, Hh. }
    rewrite <- E.
    replace (arg_of Q) with (fst (name, (Q, help)))
      by (unfold arg_of; now rewrite Ha).
    now apply selected_In.
Qed.

Lemma name_selects_its_entry_witness :
  selected [entry_of "mem2reg" Examples.mem2reg; entry_of "dce" Examples.dce]
           "dce"
  = Some (entry_of "dce" Examples.dce).
Proof.
  set (w := {| registry := [Examples.mem2reg; Examples.dce];
               parser := {| Opt := Some 7;
                            Values := [entry_of "mem2reg" Examples.mem2reg;
                                       entry_of "dce" Examples.dce] |} |}).
  apply (proj1 (proj1 (name_selects_its_entry Examples.base
                         [RegisterPass Examples.mem2reg; Initialize 7;
                          RegisterPass Examples.dce] w eq_refl)
                      (entry_of "dce" Examples.dce))).
  right. left. reflexivity.
Defined.

(** X9. Rendering help reorders the table but does not change what a name
    selects: with pairwise distinct names, every name selects the same entry
    (or none) after [printOptionInfo] as before. *)
Theorem printOptionInfo_keeps_selection
    (this : PassNameParser) (Op : Option_t) (GlobalWidth : nat)
    (name : string) :
  NoDup (tokens (Values this)) ->
  selected (Values (fst (printOptionInfo this Op GlobalWidth))) name
  = selected (Values this) name.
Proof.
  intros Hnd. rewrite printOptionInfo_Values.
  assert (Hp : Permutation (std_sort ValLessThan (Values this)) (Values this))
    by apply std_sort_perm.
  assert (Hnd' : NoDup (tokens (std_sort ValLessThan (Values this)))).
  { eapply Permutation_NoDup; [|exact Hnd].
    apply Permutation_map. now symmetry. }
  destruct (in_dec string_dec name (tokens (Values this))) as [i|n].
  - unfold tokens in i. apply in_map_iff in i. destruct i as (v & <- & Hv).
    rewrite (selected_In _ v Hnd Hv).
    apply selected_In; [exact Hnd'|].
    eapply Permutation_in; [symmetry; exact Hp | exact Hv].
  - rewrite (selected_absent _ _ n). apply selected_absent.
    intros H. apply n. eapply Permutation_in; [|exact H].
    now apply Permutation_map.
Qed.

Lemma printOptionInfo_keeps_selection_witness :
  selected (Values (fst (printOptionInfo Examples.three 7 80))) "mem2reg"
  = Some (entry_of "mem2reg" Examples.mem2reg).
Proof.
  rewrite (printOptionInfo_keeps_selection Examples.three 7 80 "mem2reg").
  - reflexivity.
  - repeat constructor; simpl; intuition discriminate.
Defined.

(** X10. With pairwise distinct names the help that is printed depends on
    which entries the table holds, not on the order in which they were
    registered: two parsers whose tables are rearrangements of one another
    print the same lines and are left with the same table. *)
Theorem help_independent_of_registration_order
    (p1 p2 : PassNameParser) (Op : Option_t) (GlobalWidth : nat) :
  Permutation (Values p1) (Values p2) ->
  NoDup (tokens (Values p1)) ->
  snd (printOptionInfo p1 Op GlobalWidth)
  = snd (printOptionInfo p2 Op GlobalWidth)
  /\ Values (fst (printOptionInfo p1 Op GlobalWidth))
     = Values (fst (printOptionInfo p2 Op GlobalWidth)).
Proof.
  intros Hp Hnd.
  assert (E : std_sort ValLessThan (Values p1)
              = std_sort ValLessThan (Values p2)).
  { apply std_sort_unique.
    - eapply Permutation_NoDup; [|exact Hnd]. now apply Permutation_map.
    - rewrite <- Hp. apply std_sort_perm.
    - apply std_sort_sorted. exact ValLessThan_asym. }
  rewrite !printOptionInfo_printed, !printOptionInfo_Values, E. auto.
Qed.

Lemma help_independent_of_registration_order_witness :
  let other := {| Opt := Some 9;
                  Values := [entry_of "adce" Examples.adce;
                             entry_of "mem2reg" Examples.mem2reg;
                             entry_of "dce" Examples.dce] |} in
  snd (printOptionInfo Examples.three 7 80) = snd (printOptionInfo other 7 80).
Proof.
  intros other.
  refine (proj1 (help_independent_of_registration_order Examples.three other
                   7 80 _ _)).
  - simpl. apply Permutation_sym.
    apply (Permutation_cons_app [entry_of "mem2reg" Examples.mem2reg;
                                 entry_of "dce" Examples.dce] []).
    apply Permutation_refl.
  - repeat constructor; simpl; intuition discriminate.
Defined.

(** ** A filtered parser beside the base parser *)

Lemma ordered_ValLessThan_trans (a b c : ValType) :
  ordered ValLessThan a b -> ordered ValLessThan b c ->
  ordered ValLessThan a c.
Proof.
  unfold ordered, ValLessThan. rewrite !StringOrder.not_ltb_leb.
  apply StringOrder.leb_trans.
Qed.

Lemma std_sort_strongly_sorted (l : list ValType) :
  StronglySorted (ordered ValLessThan) (std_sort ValLessThan l).
Proof.
  apply Sorted_StronglySorted.
  - intros a b c. apply ordered_ValLessThan_trans.
  - apply std_sort_sorted. exact ValLessThan_asym.
Qed.

(** [y <= z] and [z < x] give [y < x]. *)
Lemma ValLessThan_le_lt (x y z : ValType) :
  ValLessThan z y = false -> ValLessThan z x = true -> ValLessThan y x = true.
Proof.
  unfold ValLessThan. intros H1 H2.
  apply StringOrder.not_ltb_leb in H1.
  destruct (StringOrder.leb_ltb_or_eq _ _ H1) as [L|E].
  - eapply StringOrder.ltb_trans; eauto.
  - now rewrite E.
Qed.

Lemma sort_insert_least (x : ValType) (l : list ValType) :
  (forall z, In z l -> ValLessThan z x = false) ->
  sort_insert ValLessThan x l = x :: l.
Proof.
  destruct l as [|y rest]; simpl; [reflexivity|].
  intros H. now rewrite (H y (or_introl eq_refl)).
Qed.

Lemma filter_sort_insert (f : ValType -> bool) (x : ValType) :
  forall l, StronglySorted (ordered ValLessThan) l ->
  filter f (sort_insert ValLessThan x l)
  = if f x then sort_insert ValLessThan x (filter f l) else filter f l.
Proof.
  induction 1 as [|y rest Hs IH Hall]; simpl.
  - now destruct (f x).
  - destruct (ValLessThan y x) eqn:E; simpl.
    + rewrite IH. destruct (f y), (f x); simpl; try reflexivity.
      now rewrite E.
    + destruct (f x); [|reflexivity].
      symmetry. f_equal. apply sort_insert_least.
      intros z Hz.
      assert (Hz' : In z (y :: rest)).
      { destruct (f y); [destruct Hz as [<-|Hz]; [now left|right]|right];
          now apply filter_In in Hz. }
      destruct Hz' as [<-|Hz']; [exact E|].
      rewrite Forall_forall in Hall. specialize (Hall z Hz').
      destruct (ValLessThan z x) eqn:Ez; [|reflexivity].
      rewrite (ValLessThan_le_lt x y z Hall Ez) in E. discriminate.
Qed.

(** Sorting and then keeping the accepted entries is keeping them and then
    sorting. *)
Lemma filter_std_sort (f : ValType -> bool) (l : list ValType) :
  filter f (std_sort ValLessThan l) = std_sort ValLessThan (filter f l).
Proof.
  induction l as [|x rest IH]; simpl; [reflexivity|].
  rewrite filter_sort_insert by apply std_sort_strongly_sorted.
  rewrite IH. now destruct (f x).
Qed.

Section Restriction.

Variable filter : Filter.
Variable g : PassInfo -> bool.

(** The filter answers [g] on every pass that the base tests accept. *)
Hypothesis filter_is_g :
  forall P, base_rejects P = false -> filter P = Some (g P).

Let base := PassNameParser_ignorablePassImpl.
Let filtered := FilteredPassNameParser_ignorablePassImpl filter.

Lemma tokens_restrict_incl (V : list ValType) (name : string) :
  In name (tokens (List.filter (admitted g) V)) -> In name (tokens V).
Proof.
  unfold tokens. rewrite !in_map_iff.
  intros (v & E & Hv). apply filter_In in Hv. exists v. tauto.
Qed.

Lemma passRegistered_restrict (this this' : PassNameParser) (P : PassInfo) :
  passRegistered base this P = Returned this' ->
  passRegistered filtered (restrict g this) P = Returned (restrict g this').
Proof.
  intros H.
  destruct (base_rejects P) eqn:Eb.
  - rewrite passRegistered_dropped in H
      by (left; rewrite ignorablePass_unfold; now rewrite Eb).
    injection H as <-. apply passRegistered_dropped.
    left. rewrite ignorablePass_unfold. now rewrite Eb.
  - assert (Elb : eligible base P)
      by (unfold eligible; rewrite ignorablePass_unfold; now rewrite Eb).
    assert (Ef : ignorablePass filtered P = Some (negb (g P))).
    { rewrite ignorablePass_unfold, Eb. unfold filtered,
        FilteredPassNameParser_ignorablePassImpl.
      now rewrite (filter_is_g P Eb). }
    destruct (Opt this) as [Op|] eqn:Eo.
    + pose proof (eligible_arg base P Elb) as Ha.
      rewrite (passRegistered_eligible base this P (arg_of P) Op Elb Ha Eo)
        in H.
      destruct (in_dec string_dec (arg_of P) (tokens (Values this)))
        as [i|n]; [discriminate|].
      injection H as <-. unfold restrict at 2. simpl.
      rewrite filter_app. simpl. unfold admitted at 2. simpl.
      destruct (g P) eqn:Eg; simpl in Ef.
      * rewrite (passRegistered_eligible filtered (restrict g this) P
                   (arg_of P) Op Ef Ha Eo).
        destruct (in_dec string_dec (arg_of P)
                    (tokens (Values (restrict g this)))) as [i|_];
          [|reflexivity].
        exfalso. apply n. simpl in i. now apply tokens_restrict_incl in i.
      * rewrite app_nil_r. apply passRegistered_dropped. now left.
    + rewrite passRegistered_dropped in H by (right; auto).
      injection H as <-. unfold passRegistered. rewrite Ef. simpl.
      rewrite Eo. simpl. now rewrite orb_true_r.
Qed.

Lemma enumeratePasses_restrict (known : list PassInfo) : forall this this',
  enumeratePasses base known this = Returned this' ->
  enumeratePasses filtered known (restrict g this)
  = Returned (restrict g this').
Proof.
  induction known as [|P rest IH]; simpl; intros this this' H.
  - now injection H as <-.
  - unfold passEnumerate in *.
    destruct (passRegistered base this P) as [t| |] eqn:E; try discriminate.
    rewrite (passRegistered_restrict this t P E). now apply IH.
Qed.

Lemma step_restrict (w w' : World) (e : Event) :
  step base w e = Returned w' ->
  step filtered (restrict_world g w) e = Returned (restrict_world g w').
Proof.
  destruct e as [P|Op|Op W]; simpl; intros H.
  - destruct (passRegistered base (parser w) P) as [t| |] eqn:E;
      try discriminate.
    injection H as <-.
    now rewrite (passRegistered_restrict (parser w) t P E).
  - unfold initialize in *.
    destruct (enumeratePasses base _ _) as [t| |] eqn:E; try discriminate.
    injection H as <-.
    apply enumeratePasses_restrict in E. unfold restrict at 1 in E.
    simpl in E. simpl. now rewrite E.
  - injection H as <-. unfold restrict_world, restrict. simpl.
    now rewrite filter_std_sort.
Qed.

Lemma run_restrict (es : list Event) : forall w w',
  run base w es = Returned w' ->
  run filtered (restrict_world g w) es = Returned (restrict_world g w').
Proof.
  induction es as [|e rest IH]; simpl; intros w w' H.
  - now injection H as <-.
  - destruct (step base w e) as [w1| |] eqn:E; try discriminate.
    rewrite (step_restrict w w1 e E). now apply IH.
Qed.

End Restriction.

(** X11. A filtered parser holds what the base parser holds, cut down to the
    passes its filter accepts: starting from a table whose names are pairwise
    distinct, whenever a run of the base parser returns, the same run of
    [FilteredPassNameParser<Filter>] returns as well, with the same registry
    and option, and its table is the base parser's table without the entries
    of the passes that the filter refuses, in the same order.  The names stay
    pairwise distinct along both runs, so that every sort met on the way is
    the one that [std::sort] is bound to compute. *)
Theorem filtered_table_is_restriction
    (filter : Filter) (g : PassInfo -> bool) (es : list Event) (w0 w : World) :
  NoDup (tokens (Values (parser w0))) ->
  (forall P, base_rejects P = false -> filter P = Some (g P)) ->
  run PassNameParser_ignorablePassImpl w0 es = Returned w ->
  run (FilteredPassNameParser_ignorablePassImpl filter)
      (restrict_world g w0) es
  = Returned (restrict_world g w)
  /\ NoDup (tokens (Values (parser w)))
  /\ NoDup (tokens (Values (parser (restrict_world g w)))).
Proof.
  intros Hnd Hg Hrun.
  assert (Hnd' : NoDup (tokens (Values (parser w))))
    by (eapply names_stay_distinct; eauto).
  split; [now apply run_restrict|]. split; [exact Hnd'|].
  simpl. unfold tokens in *.
  revert Hnd'. generalize (Values (parser w)).
  induction l as [|v l IH]; simpl; intros H; [constructor|].
  inversion H as [|? ? Hn H']; subst.
  destruct (admitted g v); simpl; auto.
  constructor; auto.
  intros Hin. apply Hn. apply in_map_iff in Hin.
  destruct Hin as (x & E & Hx). apply filter_In in Hx.
  rewrite <- E. apply in_map. tauto.
Qed.

Lemma filtered_table_is_restriction_witness :
  let g := fun P => String.eqb (arg_of P) "dce" in
  run (FilteredPassNameParser_ignorablePassImpl (fun P => Some (g P)))
      World_new
      [RegisterPass Examples.mem2reg; RegisterPass Examples.dce; Initialize 7;
       RegisterPass Examples.adce; PrintOptionInfo 7 80]
  = Returned {| registry := [Examples.mem2reg; Examples.dce; Examples.adce];
                parser := {| Opt := Some 7;
                             Values := [entry_of "dce" Examples.dce] |} |}.
Proof.
  intros g.
  refine (proj1 (filtered_table_is_restriction (fun P => Some (g P)) g
           [RegisterPass Examples.mem2reg; RegisterPass Examples.dce;
            Initialize 7; RegisterPass Examples.adce; PrintOptionInfo 7 80]
           World_new
           {| registry := [Examples.mem2reg; Examples.dce; Examples.adce];
              parser := {| Opt := Some 7;
                           Values := [entry_of "adce" Examples.adce;
                                      entry_of "dce" Examples.dce;
                                      entry_of "mem2reg" Examples.mem2reg] |} |}
           (NoDup_nil string) (fun P _ => eq_refl) eq_refl)).
Defined.

Lemma PassArgFilter_occurs_filter (Args : string) (P : PassInfo) :
  base_rejects P = false -> PassArgFilter Args P = Some (occurs_filter Args P).
Proof.
  intros H. destruct (base_accepts_inv P H) as (c & rest & ctor & Ha & _).
  unfold PassArgFilter, occurs_filter, arg_of. now rewrite Ha.
Qed.

(** X12. With [PassArgFilter<Args>] the options available are the
    registered passes whose argument occurs in [Args]: from the initial
    state, whenever a run of the base parser returns, the same run of the
    parser filtered by [PassArgFilter<Args>] returns with the base parser's
    table cut down to the entries whose name [strstr] finds in [Args]. *)
Theorem allow_list_table
    (Args : string) (es : list Event) (w : World) :
  run PassNameParser_ignorablePassImpl World_new es = Returned w ->
  run (FilteredPassNameParser_ignorablePassImpl (PassArgFilter Args))
      World_new es
  = Returned (restrict_world (occurs_filter Args) w).
Proof.
  intros H.
  change World_new with (restrict_world (occurs_filter Args) World_new) at 1.
  apply run_restrict; [|exact H].
  intros P. apply PassArgFilter_occurs_filter.
Qed.

Lemma allow_list_table_witness :
  run Examples.allowed_only World_new
      [RegisterPass Examples.dse; RegisterPass Examples.inline; Initialize 7;
       RegisterPass Examples.aa; RegisterPass Examples.anders_aa]
  = Returned {| registry := [Examples.dse; Examples.inline; Examples.aa;
                             Examples.anders_aa];
                parser := {| Opt := Some 7;
                             Values := [entry_of "dse" Examples.dse;
                                        entry_of "aa" Examples.aa;
                                        entry_of "anders_aa"
                                          Examples.anders_aa] |} |}.
Proof.
  exact (allow_list_table Examples.AllowedPassArgs
           [RegisterPass Examples.dse; RegisterPass Examples.inline;
            Initialize 7; RegisterPass Examples.aa;
            RegisterPass Examples.anders_aa]
           {| registry := [Examples.dse; Examples.inline; Examples.aa;
                           Examples.anders_aa];
              parser := {| Opt := Some 7;
                           Values := [entry_of "dse" Examples.dse;
                                      entry_of "inline" Examples.inline;
                                      entry_of "aa" Examples.aa;
                                      entry_of "anders_aa"
                                        Examples.anders_aa] |} |}
           eq_refl).
Defined.

(** ** Attaching a second time *)

Section Reattach.

Variable impl : Refinement.

(** A returning replay on an attached parser leaves the entry of every
    eligible replayed pass in the table. *)
Lemma enumeratePasses_covers (known : list PassInfo) : forall this this',
  Opt this <> None ->
  enumeratePasses impl known this = Returned this' ->
  forall P, In P known -> eligible impl P ->
            In (pass_entry P) (Values this').
Proof.
  induction known as [|Q rest IH]; simpl; intros this this' Ho H P HP El;
    [contradiction|].
  unfold passEnumerate in H.
  pose proof (passRegistered_keeps impl this Q) as HQ.
  destruct (passRegistered impl this Q) as [t| |] eqn:E; try discriminate.
  destruct HQ as [Hi Hopt].
  destruct HP as [->|HP].
  - pose proof (enumeratePasses_keeps impl rest t) as HR.
    rewrite H in HR. destruct HR as [Hi' _].
    apply Hi'.
    destruct (Opt this) as [Op|] eqn:Eo; [|congruence].
    rewrite (passRegistered_eligible impl this P (arg_of P) Op El
               (eligible_arg impl P El) Eo) in E.
    destruct (in_dec string_dec (arg_of P) (tokens (Values this)));
      [discriminate|].
    injection E as <-. simpl.
    apply in_or_app. right. now left.
  - apply (IH t this'); auto. congruence.
Qed.

Lemma passRegistered_answers (this : PassNameParser) (P : PassInfo)
      (t : PassNameParser) :
  passRegistered impl this P = Returned t -> ignorablePass impl P <> None.
Proof.
  unfold passRegistered. destruct (ignorablePass impl P); discriminate.
Qed.

Lemma step_registry_covered (w w' : World) (e : Event) :
  registry_covered impl w -> step impl w e = Returned w' ->
  registry_covered impl w'.
Proof.
  intros [Hans Hcov] H.
  destruct e as [P|Op|Op W]; simpl in H.
  - pose proof (passRegistered_keeps impl (parser w) P) as HK.
    destruct (passRegistered impl (parser w) P) as [t| |] eqn:E;
      try discriminate.
    injection H as <-. destruct HK as [Hi Ho]. split; simpl.
    + intros Q HQ. apply in_app_or in HQ. destruct HQ as [HQ|[<-|[]]]; auto.
      eapply passRegistered_answers; eauto.
    + intros Hopt Q HQ El. apply in_app_or in HQ.
      destruct HQ as [HQ|[<-|[]]].
      * apply Hi. apply Hcov; auto. congruence.
      * apply (enumeratePasses_covers [P] (parser w) t); auto.
        -- congruence.
        -- simpl. unfold passEnumerate. now rewrite E.
        -- now left.
  - unfold initialize in H.
    destruct (enumeratePasses impl _ _) as [t| |] eqn:E; try discriminate.
    injection H as <-. split; simpl; [exact Hans|].
    intros _ Q HQ El.
    eapply enumeratePasses_covers; [|exact E|exact HQ|exact El].
    simpl. discriminate.
  - injection H as <-. split; simpl; [exact Hans|].
    intros Hopt Q HQ El.
    eapply Permutation_in; [|apply (Hcov Hopt Q HQ El)].
    symmetry. apply std_sort_perm.
Qed.

Lemma run_registry_covered (es : list Event) : forall w w',
  registry_covered impl w -> run impl w es = Returned w' ->
  registry_covered impl w'.
Proof.
  induction es as [|e rest IH]; simpl; intros w w' HI H.
  - now injection H as <-.
  - destruct (step impl w e) as [w1| |] eqn:E; try discriminate.
    apply (IH w1); [|exact H]. eapply step_registry_covered; eauto.
Qed.

(** A replay in which every eligible pass is already in the table, and at
    least one pass is eligible, aborts at the first eligible pass and leaves
    the parser as it found it. *)
Lemma enumeratePasses_all_known (known : list PassInfo)
      (this : PassNameParser) (Op : Option_t) :
  Opt this = Some Op ->
  (forall Q, In Q known -> ignorablePass impl Q <> None) ->
  (forall P, In P known -> eligible impl P ->
             In (arg_of P) (tokens (Values this))) ->
  (exists P, In P known /\ eligible impl P) ->
  exists name,
    In name (tokens (Values this))
    /\ enumeratePasses impl known this = Aborted (duplicate_message name) this.
Proof.
  intros Ho. induction known as [|Q rest IH]; intros Hans Hcov (P & HP & El);
    [contradiction|].
  simpl. unfold passEnumerate.
  destruct (ignorablePass impl Q) as [[|]|] eqn:EQ.
  - rewrite passRegistered_dropped by (now left).
    apply IH.
    + intros Q' HQ'. apply Hans. now right.
    + intros P' HP' El'. apply Hcov; auto. now right.
    + exists P. split; [|exact El].
      destruct HP as [->|HP]; [|exact HP].
      unfold eligible in El. congruence.
  - exists (arg_of Q).
    assert (Hin : In (arg_of Q) (tokens (Values this)))
      by (apply Hcov; [now left | exact EQ]).
    split; [exact Hin|].
    rewrite (passRegistered_eligible impl this Q (arg_of Q) Op EQ
               (eligible_arg impl Q EQ) Ho).
    destruct (in_dec string_dec (arg_of Q) (tokens (Values this)));
      [reflexivity | contradiction].
  - exfalso. apply (Hans Q); [now left | exact EQ].
Qed.

End Reattach.

(** X13. A parser can be attached once.  When a parser reached from the
    initial state holds at least one entry, calling [initialize] again
    aborts: the replay meets a registered pass whose argument is already a
    name of the table, writes the duplicate message for it and ends the
    process, with the table as it was and [Opt] set to the new option. *)
Theorem second_initialize_aborts
    (impl : Refinement) (es : list Event) (w : World) (Op : Option_t) :
  run impl World_new es = Returned w ->
  Values (parser w) <> [] ->
  exists name,
    In name (tokens (Values (parser w)))
    /\ step impl w (Initialize Op)
       = Aborted (duplicate_message name)
           {| registry := registry w;
              parser := {| Opt := Some Op; Values := Values (parser w) |} |}.
Proof.
  intros Hrun Hne.
  assert (Hcov : registry_covered impl w).
  { apply (run_registry_covered impl es World_new w); [|exact Hrun].
    split; simpl; intros; contradiction. }
  destruct Hcov as [Hans Hcov].
  assert (Hopt : Opt (parser w) <> None).
  { intros Ho. apply Hne. revert Hrun Ho.
    apply (run_inv impl (fun p => Opt p = None -> Values p = [])).
    - intros this P arg Op' _ _ _ Ho. simpl. congruence.
    - intros this Op' _. simpl. discriminate.
    - intros this HI. simpl. intros Ho. now rewrite (HI Ho).
    - reflexivity. }
  assert (Hex : exists v, In v (Values (parser w))).
  { destruct (Values (parser w)) as [|v rest]; [contradiction|].
    exists v. now left. }
  destruct Hex as (v & Hv).
  pose proof (entries_wf impl es w Hrun) as Hwf.
  rewrite Forall_forall in Hwf. destruct (Hwf v Hv) as (El & _ & _).
  assert (Hreg : In (fst (snd v)) (registry w)).
  { apply (selectable_registered impl es World_new w); auto.
    - intros Q [].
    - unfold selectable.
      now apply (in_map (fun x : ValType => fst (snd x))). }
  destruct (enumeratePasses_all_known impl (registry w)
              {| Opt := Some Op; Values := Values (parser w) |} Op
              eq_refl Hans)
    as (name & Hin & Hab).
  { intros P HP HEl. simpl. unfold tokens.
    change (arg_of P) with (fst (pass_entry P)).
    apply in_map. now apply Hcov. }
  { exists (fst (snd v)). auto. }
  exists name. split; [exact Hin|].
  simpl. unfold initialize. now rewrite Hab.
Qed.

Lemma second_initialize_aborts_witness :
  exists name,
    In name ["dce"]%string
    /\ step Examples.base
            {| registry := [Examples.unnamed; Examples.dce];
               parser := Examples.attached_dce |}
            (Initialize 9)
       = Aborted (duplicate_message name)
           {| registry := [Examples.unnamed; Examples.dce];
              parser := {| Opt := Some 9;
                           Values := [entry_of "dce" Examples.dce] |} |}.
Proof.
  refine (second_initialize_aborts Examples.base
            [RegisterPass Examples.unnamed; Initialize 7;
             RegisterPass Examples.dce]
            {| registry := [Examples.unnamed; Examples.dce];
               parser := Examples.attached_dce |} 9 eq_refl _).
  discriminate.
Defined.

(** ** The table and the registry *)

Lemma tokens_of_selectable (impl : Refinement) (V : list ValType) :
  Forall (entry_wf impl) V -> tokens V = map arg_of (selectable V).
Proof.
  unfold tokens, selectable.
  induction 1 as [|v rest (_ & Ha & _) _ IH]; simpl; [reflexivity|].
  rewrite IH. unfold arg_of. now rewrite Ha.
Qed.

(** X14. Once an option is attached, the table of a parser reached from the
    initial state selects exactly the registered passes that the eligibility
    check accepts, each of them once: no eligible registered pass is missing
    and nothing else is selectable, however registrations, attachment and
    help renderings were interleaved. *)
Theorem table_is_eligible_registry
    (impl : Refinement) (es : list Event) (w : World) :
  run impl World_new es = Returned w ->
  Opt (parser w) <> None ->
  (forall P, In P (selectable (Values (parser w))) <->
             In P (registry w) /\ eligible impl P)
  /\ NoDup (selectable (Values (parser w))).
Proof.
  intros Hrun Hopt. split.
  - intros P. split.
    + intros HP. split.
      * apply (selectable_registered impl es World_new w); auto.
        intros Q [].
      * eapply selectable_eligible; eauto.
    + intros [HP El].
      assert (Hcov : registry_covered impl w).
      { apply (run_registry_covered impl es World_new w); [|exact Hrun].
        split; simpl; intros; contradiction. }
      destruct Hcov as [_ Hcov].
      unfold selectable.
      change P with ((fun v : ValType => fst (snd v)) (pass_entry P)).
      apply in_map. now apply Hcov.
  - assert (Hnd : NoDup (tokens (Values (parser w))))
      by (apply (names_stay_distinct impl es World_new w);
          [constructor | auto]).
    rewrite (tokens_of_selectable impl) in Hnd
      by (eapply entries_wf; eauto).
    eapply NoDup_map_inv. exact Hnd.
Qed.

Lemma table_is_eligible_registry_witness :
  let w := {| registry := [Examples.dce_group; Examples.mem2reg;
                           Examples.unnamed; Examples.adce];
              parser := {| Opt := Some 7;
                           Values := [entry_of "adce" Examples.adce;
                                      entry_of "mem2reg" Examples.mem2reg]
                        |} |} in
  In Examples.adce (selectable (Values (parser w)))
  /\ ~ In Examples.dce_group (selectable (Values (parser w))).
Proof.
  intros w.
  destruct (table_is_eligible_registry Examples.base
              [RegisterPass Examples.dce_group; RegisterPass Examples.mem2reg;
               Initialize 7; RegisterPass Examples.unnamed;
               RegisterPass Examples.adce; PrintOptionInfo 7 80]
              w eq_refl) as [Hiff _].
  - discriminate.
  - split.
    + apply Hiff. split; [|reflexivity].
      right. right. right. left. reflexivity.
    + intros H. apply Hiff in H. destruct H as [_ H]. discriminate H.
Defined.

(** ** What an allow-list lets through *)

Lemma string_length_append (a b : string) :
  String.length (a ++ b) = String.length a + String.length b.
Proof. induction a as [|c a IH]; simpl; [reflexivity | now rewrite IH]. Qed.

(** X15. Every option of a parser filtered by [PassArgFilter<Args>] occurs
    in [Args]: in a table reached from the initial state, the name of an
    entry is a non-empty run of consecutive characters of [Args], so that it
    is no longer than [Args]; with an empty [Args] the table has no entry. *)
Theorem allow_list_options_occur
    (Args : string) (es : list Event) (w : World)
    (name : string) (P : PassInfo) (help : cstr) :
  run (FilteredPassNameParser_ignorablePassImpl (PassArgFilter Args))
      World_new es = Returned w ->
  In (name, (P, help)) (Values (parser w)) ->
  occurs_in name Args /\ name <> EmptyString
  /\ String.length name <= String.length Args /\ Args <> EmptyString.
Proof.
  intros Hrun Hin.
  pose proof (entries_wf _ es w Hrun) as Hwf.
  rewrite Forall_forall in Hwf. destruct (Hwf _ Hin) as (El & Ha & _).
  simpl in El, Ha.
  destruct (eligible_inv _ P El) as (c & rest & ctor & Ha' & _ & Hi).
  assert (Hname : name = String c rest) by congruence.
  unfold FilteredPassNameParser_ignorablePassImpl, PassArgFilter in Hi.
  rewrite Ha in Hi. simpl in Hi.
  destruct (strstr Args name) as [k|] eqn:Ek; [|discriminate].
  destruct (strstr_found _ _ _ Ek) as (b & a & HArgs & _).
  assert (Hlen : String.length name <= String.length Args).
  { rewrite HArgs, !string_length_append. lia. }
  split; [now exists b, a|]. split; [congruence|]. split; [exact Hlen|].
  intros ->. rewrite Hname in Hlen. simpl in Hlen. lia.
Qed.

Lemma allow_list_options_occur_witness :
  occurs_in "dse" Examples.AllowedPassArgs
  /\ String.length "dse" <= String.length Examples.AllowedPassArgs.
Proof.
  destruct (allow_list_options_occur Examples.AllowedPassArgs
              [Initialize 7; RegisterPass Examples.inline;
               RegisterPass Examples.dse]
              {| registry := [Examples.inline; Examples.dse];
                 parser := {| Opt := Some 7;
                              Values := [entry_of "dse" Examples.dse] |} |}
              "dse"%string Examples.dse (getPassName Examples.dse)
              eq_refl (or_introl eq_refl))
    as (H1 & _ & H3 & _).
  split; [exact H1 | exact H3].
Defined.
